(** * lua-primer: the safe call/resume subsystem

    A shallow embedding of
    - [primer/maybe_int.hpp] (the "integer or unknown" literal type and the
      [stack_space_needed] trait),
    - [primer/detail/stack_push_each_helper.hpp] (the stack-budget estimator),
    - [primer/support/function.hpp] ([pcall_helper], [resume_helper],
      [return_helper], [fcn_call], [resume_call]),
    - [primer/bound_function.hpp] (the capability token and its call methods),
    - [primer/container/visit_struct.hpp] (reading visitable structures),
    together with the properties the specification states about them. *)

From Stdlib Require Import ZArith Lia Ascii String.
From stdpp Require Import gmap strings list.

Set Warnings "-register-all".

(** ** Machine integers

    [int] is a 32-bit two's complement integer; arithmetic results are brought
    back into range by [to_int]. *)

Definition INT_MIN : Z := (- 2 ^ 31)%Z.
Definition INT_MAX : Z := (2 ^ 31 - 1)%Z.

Definition to_int (z : Z) : Z := ((z + 2 ^ 31) mod 2 ^ 32 - 2 ^ 31)%Z.

Definition in_int (z : Z) : Prop := (INT_MIN <= z <= INT_MAX)%Z.

(** ** primer/maybe_int.hpp *)

Module MaybeInt.

Local Open Scope Z_scope.

(** [class maybe_int { int value; bool unknown; }] *)
Record maybe_int : Type := Build { value : Z; unknown : bool }.

(** [constexpr maybe_int() : value(0), unknown(true)] *)
Definition mk_unknown : maybe_int := Build 0 true.

(** [constexpr explicit maybe_int(int v) : value(v), unknown(false)] *)
Definition mk (v : Z) : maybe_int := Build v false.

(** [operator*] and [explicit operator bool] *)
Definition deref (m : maybe_int) : Z := value m.
Definition to_bool (m : maybe_int) : bool := negb (unknown m).

(** The two overloads of [to_maybe_int]. *)
Inductive operand : Type :=
| of_maybe_int (m : maybe_int)
| of_int (i : Z).

Definition to_maybe_int (a : operand) : maybe_int :=
  match a with
  | of_maybe_int m => m
  | of_int i => mk i
  end.

(** [right_associate(f, a)] and [right_associate(f, a, args...)] *)
Fixpoint right_associate (f : maybe_int -> maybe_int -> maybe_int)
         (a : operand) (args : list operand) : maybe_int :=
  match args with
  | [] => to_maybe_int a
  | b :: rest => f (to_maybe_int a) (right_associate f b rest)
  end.

(** [lifted<F>::operator()] *)
Definition lifted (f : Z -> Z -> Z) (a b : maybe_int) : maybe_int :=
  if to_bool a && to_bool b then mk (f (deref a) (deref b)) else mk_unknown.

Definition lift (f : Z -> Z -> Z) := lifted f.

(** Liftees *)
Definition add_int (a b : Z) : Z := to_int (a + b).
Definition sub_int (a b : Z) : Z := to_int (a - b).
Definition mult_int (a b : Z) : Z := to_int (a * b).
Definition max_int (a b : Z) : Z := if a >? b then a else b.
Definition min_int (a b : Z) : Z := if a <? b then a else b.

(** [maybe_int::max(args...)] and [maybe_int::min(args...)]; the parameter
    pack is never empty. *)
Definition max (a : operand) (args : list operand) : maybe_int :=
  right_associate (lift max_int) a args.

Definition min (a : operand) (args : list operand) : maybe_int :=
  right_associate (lift min_int) a args.

(** [operator+(int)], [operator+(maybe_int)] and their siblings *)
Definition plus_int (m : maybe_int) (i : Z) : maybe_int := lift add_int m (mk i).
Definition plus (m i : maybe_int) : maybe_int := lift add_int m i.
Definition times_int (m : maybe_int) (i : Z) : maybe_int := lift mult_int m (mk i).
Definition times (m i : maybe_int) : maybe_int := lift mult_int m i.
Definition minus_int (m : maybe_int) (i : Z) : maybe_int := lift sub_int m (mk i).
Definition minus (m i : maybe_int) : maybe_int := lift sub_int m i.

(** Unary minus *)
Definition neg (m : maybe_int) : maybe_int :=
  if unknown m then mk_unknown else mk (to_int (- value m)).

(** The free operators [int + maybe_int], [int - maybe_int],
    [int * maybe_int] forward to the member with the operands swapped. *)
Definition int_plus (a : Z) (b : maybe_int) : maybe_int := plus_int b a.
Definition int_minus (a : Z) (b : maybe_int) : maybe_int := minus_int b a.
Definition int_times (a : Z) (b : maybe_int) : maybe_int := times_int b a.

End MaybeInt.

(** ** The [stack_space_needed] trait

    A marshalling trait may declare a static member [stack_space_needed], of
    type [int] or of type [maybe_int], or declare none. *)

Inductive cost_member : Type :=
| member_int (v : Z)
| member_maybe_int (m : MaybeInt.maybe_int).

(** [traits::push<T>], as far as the estimator looks at it. *)
Record push_trait : Type :=
  { push_stack_space_needed : option cost_member }.

(** [stack_space_needed<T>::value]: the primary template gives "unknown", the
    specialisation brace-initialises a [maybe_int] from the member. *)
Definition stack_space_needed (T : push_trait) : MaybeInt.maybe_int :=
  match push_stack_space_needed T with
  | None => MaybeInt.mk_unknown
  | Some (member_int v) => MaybeInt.mk v
  | Some (member_maybe_int m) => m
  end.

(** ** primer/detail/stack_push_each_helper.hpp *)

(** Modelled from the spec: [Count_t<n>] of [primer/detail/count.hpp] is the
    index list [SizeList<0, ..., n-1>], "the number of items already pushed
    before" each argument. *)
Definition Count_t (n : nat) : list nat := seq 0 n.

(** The pack expansion [(stack_space_needed<push<Args>>::value + Is)...]; the
    [std::size_t] index converts to [int] for [operator+(int)]. *)
Definition push_each_terms (Args : list push_trait) (Is : list nat)
  : list MaybeInt.operand :=
  zip_with
    (fun T i => MaybeInt.of_maybe_int
                  (MaybeInt.plus_int (stack_space_needed T) (to_int (Z.of_nat i))))
    Args Is.

(** [stack_push_each_helper<Args...>::impl<SizeList<Is...>>::value()] *)
Definition stack_push_each_helper_impl (Args : list push_trait) (Is : list nat)
  : MaybeInt.maybe_int :=
  MaybeInt.max (MaybeInt.of_maybe_int (MaybeInt.mk 0)) (push_each_terms Args Is).

(** [stack_push_each_helper<Args...>::value()] *)
Definition stack_push_each_helper (Args : list push_trait)
  : MaybeInt.maybe_int :=
  stack_push_each_helper_impl Args (Count_t (length Args)).

(** ** The embedded VM

    The VM is seen through its C API only.  A value is what a stack slot can
    hold; a function is named by an identifier whose behaviour the environment
    it lives in knows. *)

Inductive lua_value : Type :=
| VNil
| VBool (b : bool)
| VInt (z : Z)
| VStr (s : string)
| VTable (fields : list (string * lua_value))
| VFun (f : nat)
| VTraceback. (* the debug library's [traceback] function *)

(** Status codes of [lua.h]. *)
Definition LUA_OK : Z := 0.
Definition LUA_YIELD : Z := 1.
Definition LUA_ERRRUN : Z := 2.
Definition LUA_ERRSYNTAX : Z := 3.
Definition LUA_ERRMEM : Z := 4.
Definition LUA_ERRGCMM : Z := 5.
Definition LUA_ERRERR : Z := 6.
Definition LUA_MULTRET : Z := (-1).

(** The ways a running function can fail. *)
Inductive vm_err : Type := ERRRUN | ERRMEM | ERRGCMM | ERRERR.

Definition err_code (k : vm_err) : Z :=
  match k with
  | ERRRUN => LUA_ERRRUN
  | ERRMEM => LUA_ERRMEM
  | ERRGCMM => LUA_ERRGCMM
  | ERRERR => LUA_ERRERR
  end.

(** What calling a function does, as far as the host can see. *)
Inductive vm_outcome : Type :=
| vm_return (rs : list lua_value)
| vm_error (k : vm_err) (e : lua_value).

(** What resuming a coroutine does: it returns, it yields (and is then
    continued by [k]), or it fails; on failure the stack is not unwound, and
    holds [residue] beneath the error value. *)
Inductive resume_outcome : Type :=
| co_return (rs : list lua_value)
| co_yield (rs : list lua_value) (k : nat)
| co_error (c : vm_err) (residue : list lua_value) (e : lua_value).

(** One environment ([lua_State]).  Index 1 of the stack is the head of
    [stack]; the top is its last element. *)
Record lua_State : Type :=
  { env_id : nat;                     (* identity, for weak back-references *)
    stack : list lua_value;
    slots : nat;                      (* stack slots allocated so far *)
    max_slots : nat;                  (* limit on the stack size *)
    registry : list lua_value;        (* the reference table of [luaL_ref] *)
    status : Z;                       (* [lua_status] *)
    cont : nat;                       (* continuation of a suspended coroutine *)
    calls : list (lua_value * list lua_value); (* invocations, latest last *)
    vm_mem : nat;                     (* allocations the VM will still grant *)
    host_mem : nat;                   (* allocations the host will still grant *)
    vm_call : nat -> list lua_value -> vm_outcome;
    vm_resume : nat -> list lua_value -> resume_outcome;
    traceback : lua_value -> lua_value }.

Definition set_stack (L : lua_State) (st : list lua_value) : lua_State :=
  {| env_id := env_id L; stack := st; slots := slots L;
     max_slots := max_slots L; registry := registry L; status := status L;
     cont := cont L; calls := calls L; vm_mem := vm_mem L;
     host_mem := host_mem L; vm_call := vm_call L; vm_resume := vm_resume L;
     traceback := traceback L |}.

Definition set_slots (L : lua_State) (n : nat) : lua_State :=
  {| env_id := env_id L; stack := stack L; slots := n;
     max_slots := max_slots L; registry := registry L; status := status L;
     cont := cont L; calls := calls L; vm_mem := vm_mem L;
     host_mem := host_mem L; vm_call := vm_call L; vm_resume := vm_resume L;
     traceback := traceback L |}.

Definition set_registry (L : lua_State) (r : list lua_value) (m : nat)
  : lua_State :=
  {| env_id := env_id L; stack := stack L; slots := slots L;
     max_slots := max_slots L; registry := r; status := status L;
     cont := cont L; calls := calls L; vm_mem := m;
     host_mem := host_mem L; vm_call := vm_call L; vm_resume := vm_resume L;
     traceback := traceback L |}.

Definition set_host_mem (L : lua_State) (m : nat) : lua_State :=
  {| env_id := env_id L; stack := stack L; slots := slots L;
     max_slots := max_slots L; registry := registry L; status := status L;
     cont := cont L; calls := calls L; vm_mem := vm_mem L;
     host_mem := m; vm_call := vm_call L; vm_resume := vm_resume L;
     traceback := traceback L |}.

Definition set_status (L : lua_State) (s : Z) (k : nat) : lua_State :=
  {| env_id := env_id L; stack := stack L; slots := slots L;
     max_slots := max_slots L; registry := registry L; status := s;
     cont := k; calls := calls L; vm_mem := vm_mem L;
     host_mem := host_mem L; vm_call := vm_call L; vm_resume := vm_resume L;
     traceback := traceback L |}.

Definition log_call (L : lua_State) (f : lua_value) (args : list lua_value)
  : lua_State :=
  {| env_id := env_id L; stack := stack L; slots := slots L;
     max_slots := max_slots L; registry := registry L; status := status L;
     cont := cont L; calls := calls L ++ [(f, args)]; vm_mem := vm_mem L;
     host_mem := host_mem L; vm_call := vm_call L; vm_resume := vm_resume L;
     traceback := traceback L |}.

(** *** Stack primitives of the C API *)

Definition lua_gettop (L : lua_State) : Z := Z.of_nat (length (stack L)).

Definition lua_absindex (L : lua_State) (idx : Z) : Z :=
  if (idx >? 0)%Z then idx else (lua_gettop L + 1 + idx)%Z.

(** The value at an index; an index outside the stack reads as nil. *)
Definition index2value (L : lua_State) (idx : Z) : lua_value :=
  let i := lua_absindex L idx in
  if (1 <=? i)%Z then default VNil (stack L !! Z.to_nat (i - 1)%Z) else VNil.

Definition lua_settop (L : lua_State) (idx : Z) : lua_State :=
  if (0 <=? idx)%Z
  then set_stack L (take (Z.to_nat idx)
                         (stack L ++ replicate (Z.to_nat idx) VNil))
  else set_stack L (take (Z.to_nat (lua_gettop L + 1 + idx)%Z) (stack L)).

Definition lua_pop (L : lua_State) (n : Z) : lua_State :=
  lua_settop L (- n - 1)%Z.

Definition lua_pushvalue_of (L : lua_State) (v : lua_value) : lua_State :=
  set_stack L (stack L ++ [v]).

(** [lua_remove]: delete the slot at [idx], shifting down the ones above. *)
Definition lua_remove (L : lua_State) (idx : Z) : lua_State :=
  set_stack L (delete (Z.to_nat (lua_absindex L idx - 1)%Z) (stack L)).

(** [lua_insert]: move the top value into [idx], shifting up the ones above. *)
Definition lua_insert (L : lua_State) (idx : Z) : lua_State :=
  let p := Z.to_nat (lua_absindex L idx - 1)%Z in
  match reverse (stack L) with
  | [] => L
  | v :: rest =>
      let below := reverse rest in
      set_stack L (take p below ++ v :: drop p below)
  end.

Definition lua_isfunction (L : lua_State) (idx : Z) : bool :=
  match index2value L idx with
  | VFun _ | VTraceback => true
  | _ => false
  end.

Definition lua_istable (L : lua_State) (idx : Z) : bool :=
  match index2value L idx with
  | VTable _ => true
  | _ => false
  end.

(** [lua_getfield]: push the field [k] of the table at [idx] (nil when there
    is no such field, or no table). *)
Fixpoint table_get (fields : list (string * lua_value)) (k : string)
  : lua_value :=
  match fields with
  | [] => VNil
  | (k', v) :: rest => if String.eqb k' k then v else table_get rest k
  end.

Definition lua_getfield (L : lua_State) (idx : Z) (k : string) : lua_State :=
  match index2value L idx with
  | VTable fields => lua_pushvalue_of L (table_get fields k)
  | _ => lua_pushvalue_of L VNil
  end.

(** [lua_checkstack]: ensure room for [n] more slots.  It fails, changing
    nothing, when the stack would outgrow its limit; it never changes the
    stack's contents. *)
Definition lua_checkstack (L : lua_State) (n : Z) : lua_State * bool :=
  let need := (length (stack L) + Z.to_nat n)%nat in
  if (need <=? slots L)%nat then (L, true)
  else if (need <=? max_slots L)%nat then (set_slots L need, true)
  else (L, false).

(** [luaopen_debug] leaves the debug library's table on the stack. *)
Definition luaopen_debug (L : lua_State) : lua_State :=
  lua_pushvalue_of L (VTable [("traceback"%string, VTraceback)]).

(** *** Calling into the VM *)

(** Applying a value to arguments. *)
Definition call_value (L : lua_State) (f : lua_value) (args : list lua_value)
  : vm_outcome :=
  match f with
  | VFun id => vm_call L id args
  | VTraceback => vm_return [traceback L (default VNil (head args))]
  | _ => vm_error ERRRUN (VStr "attempt to call a non-function value")
  end.

(** Results are truncated or padded with nil to the number asked for, unless
    that is [LUA_MULTRET]. *)
Definition adjust_results (nresults : Z) (rs : list lua_value)
  : list lua_value :=
  if (nresults =? LUA_MULTRET)%Z then rs
  else take (Z.to_nat nresults) (rs ++ replicate (Z.to_nat nresults) VNil).

(** The message handler of [lua_pcall] runs on runtime errors only; a handler
    that fails itself turns the status into [LUA_ERRERR]. *)
Definition handle_error (L : lua_State) (msgh : Z) (k : vm_err) (e : lua_value)
  : vm_err * lua_value :=
  if (msgh =? 0)%Z then (k, e)
  else match k with
       | ERRRUN =>
           match call_value L (index2value L msgh) [e] with
           | vm_return rs => (ERRRUN, default VNil (head rs))
           | vm_error _ e' => (ERRERR, e')
           end
       | _ => (k, e)
       end.

(** [lua_pcall(L, nargs, nresults, msgh)]: the function and its arguments are
    popped; either the results or one error value are pushed in their place. *)
Definition lua_pcall (L : lua_State) (nargs nresults msgh : Z)
  : lua_State * Z :=
  let fpos := (length (stack L) - Z.to_nat nargs - 1)%nat in
  let below := take fpos (stack L) in
  let f := default VNil (stack L !! fpos) in
  let args := drop (S fpos) (stack L) in
  let L1 := log_call L f args in
  match call_value L f args with
  | vm_return rs =>
      (set_stack L1 (below ++ adjust_results nresults rs), LUA_OK)
  | vm_error k e =>
      let '(k', e') := handle_error L msgh k e in
      (set_stack L1 (below ++ [e']), err_code k')
  end.

(** [lua_resume(L, nullptr, narg)].  A coroutine that has not started has its
    body beneath the arguments; a suspended one goes on from [cont]. *)
Definition resume_target (L : lua_State) (narg : Z)
  : option (nat * list lua_value * list lua_value) :=
  let n := Z.to_nat narg in
  let top := length (stack L) in
  if (status L =? LUA_OK)%Z then
    match stack L !! (top - n - 1)%nat with
    | Some (VFun f) =>
        Some (f, take (top - n - 1) (stack L), drop (top - n) (stack L))
    | _ => None
    end
  else if (status L =? LUA_YIELD)%Z then
    Some (cont L, take (top - n) (stack L), drop (top - n) (stack L))
  else None.

Definition lua_resume (L : lua_State) (narg : Z) : lua_State * Z :=
  match resume_target L narg with
  | None =>
      (lua_pushvalue_of L (VStr "cannot resume dead coroutine"), LUA_ERRRUN)
  | Some (f, below, args) =>
      let L1 := log_call L (VFun f) args in
      match vm_resume L f args with
      | co_return rs => (set_status (set_stack L1 (below ++ rs)) LUA_OK 0, LUA_OK)
      | co_yield rs k =>
          (set_status (set_stack L1 (below ++ rs)) LUA_YIELD k, LUA_YIELD)
      | co_error c residue e =>
          (set_status (set_stack L1 (residue ++ [e])) (err_code c) 0, err_code c)
      end
  end.

(** ** Host-side control flow

    Code that runs against an environment either completes, or leaves through
    a Lua error (the VM's non-local jump), or throws [std::bad_alloc]. *)

Inductive res (A : Type) : Type :=
| Ok (a : A) (L : lua_State)
| Raise (k : vm_err) (e : lua_value) (L : lua_State)
| BadAlloc (L : lua_State).

Arguments Ok {A} a L.
Arguments Raise {A} k e L.
Arguments BadAlloc {A} L.

Definition M (A : Type) : Type := lua_State -> res A.

Definition ret {A} (a : A) : M A := fun L => Ok a L.

Definition bind {A B} (c : M A) (k : A -> M B) : M B :=
  fun L =>
    match c L with
    | Ok a L' => k a L'
    | Raise e v L' => Raise e v L'
    | BadAlloc L' => BadAlloc L'
    end.

Notation "'do' x <- c ; k" := (bind c (fun x => k))
  (at level 10, x name, c at level 100, k at level 200).
Notation "'do' ' p <- c ; k" := (bind c (fun x => let 'p := x in k))
  (at level 10, p pattern, c at level 100, k at level 200).

(** A primitive that cannot fail, run for its effect or for a value. *)
Definition effect (f : lua_State -> lua_State) : M unit :=
  fun L => Ok tt (f L).
Definition effect_of {A} (f : lua_State -> lua_State * A) : M A :=
  fun L => let '(L', a) := f L in Ok a L'.
Definition observe {A} (f : lua_State -> A) : M A := fun L => Ok (f L) L.

(** [PRIMER_TRY_BAD_ALLOC { body } PRIMER_CATCH_BAD_ALLOC { handler }] *)
Definition try_bad_alloc {A} (body : M A) (handler : M A) : M A :=
  fun L =>
    match body L with
    | BadAlloc L' => handler L'
    | r => r
    end.

(** A host allocation. *)
Definition host_alloc : M unit :=
  fun L =>
    match host_mem L with
    | O => BadAlloc L
    | S m => Ok tt (set_host_mem L m)
    end.

(** [lua_call(L, nargs, nresults)]: as [lua_pcall], but an error propagates. *)
Definition lua_call (nargs nresults : Z) : M unit :=
  fun L =>
    let fpos := (length (stack L) - Z.to_nat nargs - 1)%nat in
    let below := take fpos (stack L) in
    let f := default VNil (stack L !! fpos) in
    let args := drop (S fpos) (stack L) in
    let L1 := log_call L f args in
    match call_value L f args with
    | vm_return rs => Ok tt (set_stack L1 (below ++ adjust_results nresults rs))
    | vm_error k e => Raise k e L1
    end.

(** [luaL_ref(L, LUA_REGISTRYINDEX)]: pop the top value and store it in the
    registry under a fresh key; nil is not stored.  Growing the registry may
    fail for lack of memory. *)
Definition LUA_REFNIL : Z := (-1).
Definition LUA_NOREF : Z := (-2).

Definition luaL_ref : M Z :=
  fun L =>
    match index2value L (-1) with
    | VNil => Ok LUA_REFNIL (lua_pop L 1)
    | v =>
        match vm_mem L with
        | O => Raise ERRMEM (VStr "not enough memory") L
        | S m =>
            Ok (Z.of_nat (length (registry L)))
               (lua_pop (set_registry L (registry L ++ [v]) m) 1)
        end
    end.

Definition lua_rawgeti_registry (L : lua_State) (key : Z) : lua_value :=
  if (key <? 0)%Z then VNil
  else default VNil (registry L !! Z.to_nat key).

(** ** Errors and results *)

(** [primer::error]: a message. *)
Record error : Type := { what : string }.

(** [primer::expected<T>] *)
Inductive expected (T : Type) : Type :=
| expected_value (v : T)
| expected_error (e : error).

Arguments expected_value {T} v.
Arguments expected_error {T} e.

Definition is_value {T} (r : expected T) : bool :=
  match r with
  | expected_value _ => true
  | expected_error _ => false
  end.

(** Modelled from the spec: [error::prepend_error_line(args...)] of
    [primer/error.hpp] adds a context line in front of the message "without
    losing the original message"; the line is the concatenation of its
    arguments. *)
Definition newline : string := String "010"%char EmptyString.

Definition prepend_error_line (e : error) (parts : list string) : error :=
  {| what := String.concat "" parts +:+ newline +:+ what e |}.

(** Modelled from the spec: the error record of a failed host allocation,
    [primer::error{bad_alloc_tag{}}] of [primer/error.hpp]. *)
Definition bad_alloc_error : error := {| what := "bad_alloc" |}.

(** Modelled from the spec: the "insufficient stack space" error of
    [primer/error.hpp]. *)
Definition insufficient_stack_space : error :=
  {| what := "Insufficient stack space" |}.

(** Modelled from the spec: [error::unexpected_value(expected, found)] of
    [primer/error.hpp], the result-conversion error. *)
Definition unexpected_value (expect found : string) : error :=
  {| what := "Expected " +:+ expect +:+ ", found " +:+ found |}.

(** Modelled from the spec: the message of the error record made from an
    error value; a string is its own message. *)
Definition error_text (err_code : Z) (v : lua_value) : string :=
  match v with
  | VStr s => s
  | _ => "(error object is not a string)"
  end.

(** Modelled from the spec: [detail::pop_error(L, err_code)] of
    [primer/support/error_capture.hpp]: "the error value on top of the stack
    is converted to an error record and popped". *)
Definition pop_error (L : lua_State) (err_code : Z) : lua_State * error :=
  (lua_pop L 1, {| what := error_text err_code (index2value L (-1)) |}).

(** ** References to VM values

    [primer/lua_ref.hpp] and [primer/lua_ref_seq.hpp] are used here through
    their interface. *)

(** Modelled from the spec: a [lua_ref] (the capability token of
    [primer/lua_ref.hpp]) "identifies a specific VM-resident value and a
    specific owning environment": a weak back-reference to the environment
    and an opaque identifier, or nothing when it is empty. *)
Inductive lua_ref : Type :=
| empty_ref
| ref (owner : nat) (key : Z).

(** The host's environments are kept by identity in a [gmap nat lua_State];
    destroying an environment ([lua_close]) removes it. *)
Definition lua_close (e : nat) (w : gmap nat lua_State) : gmap nat lua_State :=
  delete e w.

(** Modelled from the spec: [lua_ref::lock()] "returns a usable handle to the
    owning environment, or a none outcome if it no longer exists". *)
Definition lua_ref_lock (r : lua_ref) (w : gmap nat lua_State)
  : option lua_State :=
  match r with
  | empty_ref => None
  | ref e _ => w !! e
  end.

(** Modelled from the spec: [lua_ref::push(L)] "re-pushes the referenced value
    onto the given environment's stack; returns whether the owning
    environment could be locked.  No effect, reports failure, if the token is
    empty or the environment is gone". *)
Definition lua_ref_push_to (r : lua_ref) (target : nat)
           (w : gmap nat lua_State) : gmap nat lua_State * bool :=
  match r, lua_ref_lock r w with
  | ref _ k, Some Lo =>
      match w !! target with
      | Some Ltgt =>
          (<[target := lua_pushvalue_of Ltgt (lua_rawgeti_registry Lo k)]> w,
           true)
      | None => (w, false)
      end
  | _, _ => (w, false)
  end.

(** Modelled from the spec: [lua_ref::push(L)] again, as [call_impl] uses
    it, from inside the environment [L] that was just locked: the value is
    pushed when [L] is the owner, and nothing happens otherwise. *)
Definition lua_ref_push (r : lua_ref) : M bool :=
  fun L =>
    match r with
    | ref e k =>
        if (e =? env_id L)%nat
        then Ok true (lua_pushvalue_of L (lua_rawgeti_registry L k))
        else Ok false L
    | empty_ref => Ok false L
    end.

(** Modelled from the spec: [lua_ref::reset()] "invalidates the token
    eagerly". *)
Definition lua_ref_reset (r : lua_ref) : lua_ref := empty_ref.

(** Modelled from the spec: the constructor of [lua_ref] from an environment captures
    the top-of-stack value into a new token and removes it from the stack; a
    null pointer gives the empty token and touches nothing. *)
Definition lua_ref_ctor (null : bool) : M lua_ref :=
  if null then ret empty_ref
  else do k <- luaL_ref; observe (fun L => ref (env_id L) k).

(** Modelled from the spec: a [lua_ref_seq] of [primer/lua_ref_seq.hpp] is a
    sequence of references. *)
Definition lua_ref_seq : Type := list lua_ref.

(** Modelled from the spec: [lua_ref_seq::push_each(L)] pushes the members in
    order. *)
Fixpoint lua_ref_seq_push_each (inputs : lua_ref_seq) : M unit :=
  match inputs with
  | [] => ret tt
  | r :: rest => do _ <- lua_ref_push r; lua_ref_seq_push_each rest
  end.

(** Modelled from the spec: [primer::pop_n(L, n, seq)] of
    [primer/lua_ref_seq.hpp] drains the top [n] values one by one into [seq],
    keeping their stack order; each member needs host memory for its place in
    the sequence and a reference in the VM. *)
Fixpoint pop_n_loop (n : nat) (acc : lua_ref_seq) : M lua_ref_seq :=
  match n with
  | O => ret acc
  | S n' =>
      do _ <- host_alloc;
      do r <- lua_ref_ctor false;
      pop_n_loop n' (r :: acc)
  end.

Definition pop_n (n : Z) : M lua_ref_seq := pop_n_loop (Z.to_nat n) [].

(** ** primer/support/function.hpp *)

(** [detail::fetch_traceback_function] *)
Definition fetch_traceback_function (L : lua_State) : lua_State :=
  let L := luaopen_debug L in
  let L := lua_getfield L (-1) "traceback" in
  lua_remove L (-2).

(** Modelled from the spec: [detail::push_cached<f>(L)] of
    [primer/support/push_cached.hpp] pushes the value [f] produces; keeping it
    for later calls is not modelled. *)
Definition push_cached (f : lua_State -> lua_State) (L : lua_State)
  : lua_State := f L.

(** [detail::pcall_helper(L, narg, nret)] *)
Definition pcall_helper (narg nret : Z) (L : lua_State)
  : lua_State * (Z * Z) :=
  let L := push_cached fetch_traceback_function L in
  let L := lua_insert L (-2 - narg) in
  let error_handler_index := lua_absindex L (-2 - narg) in
  let '(L, result_code) := lua_pcall L narg nret error_handler_index in
  let L := lua_remove L error_handler_index in
  (L, (result_code, error_handler_index)).

(** [detail::resume_helper(L, narg)] *)
Definition resume_helper (narg : Z) : M (Z * Z) :=
  do result_index <- observe (fun L => lua_absindex L (-1 - narg));
  do result_code <- effect_of (fun L => lua_resume L narg);
  do _ <- (if negb (result_code =? LUA_OK)%Z && negb (result_code =? LUA_YIELD)%Z
           then
             do _ <- effect (push_cached fetch_traceback_function);
             do _ <- effect (fun L => lua_insert L (-2));
             lua_call 1 1
           else ret tt);
  ret (result_code, result_index).

(** The three instances of [return_helper<T>]. *)
Inductive return_kind : Type := ret_void | ret_lua_ref | ret_lua_ref_seq.

Definition return_type (T : return_kind) : Type :=
  match T with
  | ret_void => unit
  | ret_lua_ref => lua_ref
  | ret_lua_ref_seq => lua_ref_seq
  end.

Definition nrets (T : return_kind) : Z :=
  match T with
  | ret_void => 0
  | ret_lua_ref => 1
  | ret_lua_ref_seq => LUA_MULTRET
  end.

(** [return_helper<T>::pop(L, start_idx, result)] *)
Definition return_helper_pop (T : return_kind) (start_idx : Z)
  : M (expected (return_type T)) :=
  match T return M (expected (return_type T)) with
  | ret_void => ret (expected_value tt)
  | ret_lua_ref => do r <- lua_ref_ctor false; ret (expected_value r)
  | ret_lua_ref_seq =>
      try_bad_alloc
        (do n <- observe (fun L => lua_gettop L - start_idx + 1)%Z;
         do s <- pop_n n;
         ret (expected_value s))
        (ret (expected_error bad_alloc_error))
  end.

(** [detail::fcn_call<T>(result, L, narg)]; the result is returned rather than
    assigned through the reference. *)
Definition fcn_call (T : return_kind) (narg : Z)
  : M (expected (return_type T)) :=
  do '(err_code, results_idx) <- effect_of (pcall_helper narg (nrets T));
  if negb (err_code =? LUA_OK)%Z
  then do e <- effect_of (fun L => pop_error L err_code);
       ret (expected_error e)
  else return_helper_pop T results_idx.

(** The condition [fcn_call] asserts before it returns, "hmm stack discipline
    error" otherwise. *)
Definition stack_discipline (L : lua_State) (results_idx : Z) : Prop :=
  lua_gettop L = (results_idx - 1)%Z.

(** [detail::resume_call<T>(result, L, narg)] *)
Definition resume_call (T : return_kind) (narg : Z)
  : M (expected (return_type T)) :=
  do '(err_code, results_idx) <- resume_helper narg;
  do result <- (if (err_code =? LUA_OK)%Z || (err_code =? LUA_YIELD)%Z
                then return_helper_pop T results_idx
                else do e <- effect_of (fun L => pop_error L err_code);
                     ret (expected_error e));
  do _ <- effect (fun L => lua_settop L (results_idx - 1));
  ret result.

(** The call and resume entry points. *)
Definition fcn_call_one_ret (narg : Z) : M (expected lua_ref) :=
  fcn_call ret_lua_ref narg.
Definition fcn_call_no_ret (narg : Z) : M (expected unit) :=
  fcn_call ret_void narg.
Definition fcn_call_all (narg : Z) : M (expected lua_ref_seq) :=
  fcn_call ret_lua_ref_seq narg.
Definition resume_one_ret (narg : Z) : M (expected lua_ref) :=
  resume_call ret_lua_ref narg.
Definition resume_no_ret (narg : Z) : M (expected unit) :=
  resume_call ret_void narg.
Definition resume (narg : Z) : M (expected lua_ref_seq) :=
  resume_call ret_lua_ref_seq narg.

(** ** primer/bound_function.hpp *)

(** A host argument, as the call machinery sees it: the marshalling trait of
    its type, and the value that trait's [to_stack] pushes. *)
Record host_arg : Type :=
  { arg_trait : push_trait;
    arg_value : lua_value }.

(** Modelled from the spec: [primer::push_each(L, args...)] of
    [primer/push.hpp] "pushes each argument via its marshalling trait", in
    order, one value each. *)
Definition push_each (args : list host_arg) : M unit :=
  effect (fun L => set_stack L (stack L ++ map arg_value args)).

(** Modelled from the spec: the marshalling trait of [int] needs one slot; in
    [check_stack_push_each<int, Args...>] it stands for the callable's slot
    ("callable-slot=1"). *)
Definition push_int : push_trait :=
  {| push_stack_space_needed := Some (member_int 1) |}.

(** [traits::push<T>] of a visitable structure (visit_struct.hpp) *)
Definition push_visitable : push_trait :=
  {| push_stack_space_needed := Some (member_int 2) |}.

(** Modelled from the spec: [primer::mem_pcall(L, f, args...)] of
    [primer/support/cpp_pcall.hpp] runs [f] in a protected context: a Lua
    error raised inside is caught and reported as an error record, with the
    stack back at the depth it had on entry.  The body may not throw, so the
    last branch is there for totality only. *)
Definition mem_pcall {A} (body : M A) (L : lua_State)
  : lua_State * expected unit * option A :=
  match body L with
  | Ok a L' => (L', expected_value tt, Some a)
  | Raise k e L' =>
      (lua_settop L' (lua_gettop L),
       expected_error {| what := error_text (err_code k) e |}, None)
  | BadAlloc L' =>
      (lua_settop L' (lua_gettop L), expected_error bad_alloc_error, None)
  end.

Section BoundFunction.

(** The reserve asked for when a margin is unknown: a configuration
    constant of the library. *)
Variable default_reserve : Z.

(** Modelled from the spec: [detail::check_stack_push_each<Args...>(L)] of
    [primer/support/function_check_stack.hpp] "performs the VM's native
    capacity-reservation check" for the estimated margin, "treating unknown
    as a larger, configured default reserve"; failing it gives the
    "insufficient stack space" error. *)
Definition check_stack_push_each (Args : list push_trait) (L : lua_State)
  : lua_State * expected unit :=
  let m := stack_push_each_helper Args in
  let n := if MaybeInt.to_bool m then MaybeInt.deref m else default_reserve in
  let '(L', ok) := lua_checkstack L n in
  (L', if ok then expected_value tt
       else expected_error insufficient_stack_space).

(** Modelled from the spec: [detail::check_stack_push_n(L, n)], the "simpler
    total-count margin check". *)
Definition check_stack_push_n (L : lua_State) (n : Z)
  : lua_State * expected unit :=
  let '(L', ok) := lua_checkstack L n in
  (L', if ok then expected_value tt
       else expected_error insufficient_stack_space).

(** [class bound_function { lua_ref ref_; }] *)
Record bound_function : Type := { ref_ : lua_ref }.

(** The environment a locked token points to is mutated in place. *)
Definition store (r : lua_ref) (L : lua_State) (w : gmap nat lua_State)
  : gmap nat lua_State :=
  match r with
  | ref e _ => <[e := L]> w
  | empty_ref => w
  end.

(** [bound_function::call_impl<return_type, Args...>] *)
Definition call_impl (T : return_kind) (fcn : lua_ref) (args : list host_arg)
  : M (expected (return_type T)) :=
  do _ <- lua_ref_push fcn;
  do _ <- push_each args;
  fcn_call T (Z.of_nat (length args)).

(** [bound_function::protected_call<return_type, Args...>] *)
Definition protected_call (T : return_kind) (self : bound_function)
           (args : list host_arg) (w : gmap nat lua_State)
  : gmap nat lua_State * expected (return_type T) :=
  let result := expected_error {| what := "Can't lock VM" |} in
  match lua_ref_lock (ref_ self) w with
  | Some L =>
      match check_stack_push_each (push_int :: map arg_trait args) L with
      | (L, expected_value _) =>
          let '(L, ok, ret) := mem_pcall (call_impl T (ref_ self) args) L in
          (store (ref_ self) L w,
           match ok with
           | expected_value _ => default result ret
           | expected_error e => expected_error e
           end)
      | (L, expected_error e) => (store (ref_ self) L w, expected_error e)
      end
  | None => (w, result)
  end.

(** [bound_function::call_impl2<return_type>] *)
Definition call_impl2 (T : return_kind) (fcn : lua_ref)
           (inputs : lua_ref_seq) : M (expected (return_type T)) :=
  do _ <- lua_ref_push fcn;
  do _ <- lua_ref_seq_push_each inputs;
  fcn_call T (Z.of_nat (length inputs)).

(** [bound_function::protected_call2<return_type>] *)
Definition protected_call2 (T : return_kind) (self : bound_function)
           (inputs : lua_ref_seq) (w : gmap nat lua_State)
  : gmap nat lua_State * expected (return_type T) :=
  let result := expected_error {| what := "Can't lock VM" |} in
  match lua_ref_lock (ref_ self) w with
  | Some L =>
      match check_stack_push_n L (1 + Z.of_nat (length inputs)) with
      | (L, expected_value _) =>
          let '(L, ok, ret) := mem_pcall (call_impl2 T (ref_ self) inputs) L in
          (store (ref_ self) L w,
           match ok with
           | expected_value _ => default result ret
           | expected_error e => expected_error e
           end)
      | (L, expected_error e) => (store (ref_ self) L w, expected_error e)
      end
  | None => (w, result)
  end.

(** The primary constructor,
    [ref_(lua_gettop(L) ? (lua_isfunction(L, -1) ? L : (lua_pop(L, 1), nullptr)) : nullptr)]. *)
Definition bound_function_of_stack : M bound_function :=
  do top <- observe lua_gettop;
  do r <- (if negb (top =? 0)%Z
           then
             do isf <- observe (fun L => lua_isfunction L (-1));
             if isf then lua_ref_ctor false
             else do _ <- effect (fun L => lua_pop L 1); lua_ref_ctor true
           else lua_ref_ctor true);
  ret {| ref_ := r |}.

(** Forwarded methods from [lua_ref] *)
Definition to_bool (self : bound_function) : bool :=
  match ref_ self with
  | empty_ref => false
  | ref _ _ => true
  end.

Definition push (self : bound_function) (target : nat)
           (w : gmap nat lua_State) : gmap nat lua_State * bool :=
  lua_ref_push_to (ref_ self) target w.

Definition reset (self : bound_function) : bound_function :=
  {| ref_ := lua_ref_reset (ref_ self) |}.

(** The call methods, [CALL_DEFINITIONS(N, T)]. *)
Definition call_no_ret := protected_call ret_void.
Definition call_no_ret_seq := protected_call2 ret_void.
Definition call_one_ret := protected_call ret_lua_ref.
Definition call_one_ret_seq := protected_call2 ret_lua_ref.
Definition call := protected_call ret_lua_ref_seq.
Definition call_seq := protected_call2 ret_lua_ref_seq.

End BoundFunction.

(** ** primer/container/visit_struct.hpp: reading visitable structures *)

(** What a read produces on the host side. *)
Inductive host_value : Type :=
| host_prim (v : lua_value)
| host_struct (members : list (string * host_value)).

(** A readable type is given by its [traits::read]: either some other trait,
    known by the value a default-constructed object has and by what its
    [from_stack] answers, or the trait of a visitable structure, known by the
    names and types of its members. *)
Inductive cpp_type : Type :=
| leaf (dflt : host_value)
       (read : lua_State -> Z -> expected host_value)
| visitable (members : list (string * cpp_type)).

(** [T{}] *)
Fixpoint default_value (T : cpp_type) : host_value :=
  match T with
  | leaf d _ => d
  | visitable members =>
      host_struct (map (fun m => (fst m, default_value (snd m))) members)
  end.

(** Modelled from the spec: [describe_lua_value(L, index)] names what was
    found where a table was expected. *)
Definition describe_lua_value (L : lua_State) (index : Z) : string :=
  match index2value L index with
  | VNil => "nil"
  | VBool _ => "boolean"
  | VInt _ => "number"
  | VStr _ => "string"
  | VTable _ => "table"
  | VFun _ | VTraceback => "function"
  end.

(** [struct read_helper { lua_State * L; int index; expected<void> ok; }]; the
    environment is threaded through the calls instead. *)
Record read_helper : Type :=
  { index : Z;
    ok : expected unit }.

(** A member as the visitor meets it: its name, the [from_stack] of its type,
    and the value it holds before the visit. *)
Definition member : Type :=
  string * (lua_State -> Z -> lua_State * expected host_value) * host_value.

(** [read_helper::operator()(name, value)] *)
Definition read_helper_visit (vis : read_helper) (m : member) (L : lua_State)
  : lua_State * read_helper * host_value :=
  let '(name, from_stack, value) := m in
  if negb (is_value (ok vis)) then (L, vis, value)
  else
    let L := lua_getfield L (index vis) name in
    let '(L, result) := from_stack L (-1)%Z in
    let '(vis, value) :=
      match result with
      | expected_value v => (vis, v)
      | expected_error e =>
          ({| index := index vis;
              ok := expected_error
                      (prepend_error_line e ["In field name '"; name; "',"]) |},
           value)
      end in
    (lua_pop L 1, vis, value).

(** [visit_struct::apply_visitor(vis, s)]: the visitor is called on every
    member, in declaration order. *)
Fixpoint apply_visitor (vis : read_helper) (ms : list member) (L : lua_State)
  : lua_State * read_helper * list (string * host_value) :=
  match ms with
  | [] => (L, vis, [])
  | m :: rest =>
      let '(L, vis, v) := read_helper_visit vis m L in
      let '(L, vis, vs) := apply_visitor vis rest L in
      (L, vis, (fst (fst m), v) :: vs)
  end.

(** [traits::read<T>::from_stack(L, index)] *)
Fixpoint from_stack (T : cpp_type) (L : lua_State) (index : Z)
  : lua_State * expected host_value :=
  match T with
  | leaf _ read => (L, read L index)
  | visitable members =>
      let index := lua_absindex L index in
      if negb (lua_istable L index)
      then (L, expected_error
                 (unexpected_value "table" (describe_lua_value L index)))
      else
        let vis := {| index := index; ok := expected_value tt |} in
        let ms := map (fun m => (fst m, from_stack (snd m),
                                 default_value (snd m))) members in
        let '(L, vis, vs) := apply_visitor vis ms L in
        (L, match ok vis with
            | expected_error e => expected_error e
            | expected_value _ => expected_value (host_struct vs)
            end)
  end.

(** ** Vocabulary of the properties *)

(** No addition of the estimator leaves the range of [int]: the declared
    costs are [int]s, and so are the positions and the sums, counting
    positions from [s]. *)
Definition representable_from (s : nat) (Args : list push_trait) : Prop :=
  forall (i : nat) (T : push_trait),
    Args !! i = Some T ->
    MaybeInt.unknown (stack_space_needed T) = false ->
    in_int (MaybeInt.value (stack_space_needed T))
    /\ in_int (Z.of_nat (s + i))
    /\ in_int (MaybeInt.value (stack_space_needed T) + Z.of_nat (s + i)).

Definition representable (Args : list push_trait) : Prop :=
  representable_from 0 Args.

(** The number of values a result holds on to. *)
Definition retained {T : return_kind} : expected (return_type T) -> nat :=
  match T return expected (return_type T) -> nat with
  | ret_void => fun _ => 0
  | ret_lua_ref => fun r => if is_value r then 1 else 0
  | ret_lua_ref_seq =>
      fun r => match r with
               | expected_value s => length s
               | expected_error _ => 0
               end
  end.

(** The error value after the traceback handler of [pcall_helper] has seen
    it: the handler runs on runtime errors. *)
Definition intercepted (L : lua_State) (k : vm_err) (e : lua_value)
  : lua_value :=
  match k with
  | ERRRUN => traceback L e
  | _ => e
  end.

(** The context line [read_helper] puts in front of a member's error. *)
Definition context_line (name : string) : string :=
  "In field name '" +:+ name +:+ "',".

(** What reading a member answers, with the member's field on top. *)
Definition member_read (L : lua_State) (idx : Z) (m : member)
  : expected host_value :=
  snd (snd (fst m) (lua_getfield L idx (fst (fst m))) (-1)%Z).

(** A member whose read leaves the environment as it found it. *)
Definition neutral (m : member) : Prop :=
  forall (L : lua_State) (i : Z), fst (snd (fst m) L i) = L.

(** The member [m] of the table at [idx] converts. *)
Definition reads_well (L : lua_State) (idx : Z) (m : string * cpp_type)
  : Prop :=
  is_value (snd (from_stack (snd m) (lua_getfield L idx (fst m)) (-1)%Z)) = true.

(** *** Sample data *)

(** A type whose marshalling trait declares no [stack_space_needed]. *)
Definition push_undeclared : push_trait :=
  {| push_stack_space_needed := None |}.

(** An environment in which function 1 returns two values and every other
    function fails; coroutine 1 yields once and is continued by 2, which
    returns; every other coroutine fails. *)
Definition sample_env (st : list lua_value) (limit : nat) : lua_State :=
  {| env_id := 0;
     stack := st;
     slots := length st;
     max_slots := limit;
     registry := [];
     status := LUA_OK;
     cont := 0;
     calls := [];
     vm_mem := 8;
     host_mem := 8;
     vm_call := fun f _ =>
                  match f with
                  | 1 => vm_return [VInt 1; VInt 2]
                  | _ => vm_error ERRRUN (VStr "boom")
                  end;
     vm_resume := fun f _ =>
                    match f with
                    | 1 => co_yield [VInt 7] 2
                    | 2 => co_return [VInt 8]
                    | _ => co_error ERRRUN [VNil; VNil] (VStr "bad")
                    end;
     traceback := fun v =>
                    match v with
                    | VStr s => VStr (s +:+ " (traceback)")
                    | _ => v
                    end |}.

(** A member type that reads integers only. *)
Definition int_type : cpp_type :=
  leaf (host_prim (VInt 0))
       (fun L idx =>
          match index2value L idx with
          | VInt z => expected_value (host_prim (VInt z))
          | _ => expected_error
                   (unexpected_value "integer" (describe_lua_value L idx))
          end).

(** ** Writing to tables *)

(** A table without the field [k]. *)
Fixpoint table_remove (fields : list (string * lua_value)) (k : string)
  : list (string * lua_value) :=
  match fields with
  | [] => []
  | (k', v) :: rest =>
      if String.eqb k' k then table_remove rest k
      else (k', v) :: table_remove rest k
  end.

(** [t[k] = v]: assigning nil removes the field. *)
Definition table_set (fields : list (string * lua_value)) (k : string)
           (v : lua_value) : list (string * lua_value) :=
  match v with
  | VNil => table_remove fields k
  | _ => table_remove fields k ++ [(k, v)]
  end.

(** [lua_setfield(L, idx, k)]: [t[k] = v] for the table [t] at [idx] and the
    value [v] on top of the stack, which is popped; indexing anything else is
    an error. *)
Definition lua_setfield (idx : Z) (k : string) : M unit :=
  fun L =>
    match index2value L idx with
    | VTable fields =>
        let t := VTable (table_set fields k (index2value L (-1))) in
        Ok tt (lua_pop
                 (set_stack L (<[Z.to_nat (lua_absindex L idx - 1) := t]>
                                 (stack L))) 1)
    | _ => Raise ERRRUN (VStr "attempt to index a non-table value") L
    end.

(** [lua_pushcfunction(L, f)] *)
Definition lua_pushcfunction (L : lua_State) (f : nat) : lua_State :=
  lua_pushvalue_of L (VFun f).

(** [lua_createtable(L, narr, nrec)]: push a new empty table; the sizes are
    hints. *)
Definition lua_createtable (L : lua_State) (narr nrec : Z) : lua_State :=
  lua_pushvalue_of L (VTable []).

(** ** primer/set_funcs.hpp *)

(** An object matching the [luaL_Reg] concept: a name and a function, either
    of which may be null. *)
Record luaL_Reg : Type :=
  { reg_name : option string;
    reg_func : option nat }.

(** The body of the loop of [set_funcs]. *)
Definition set_funcs_step (reg : luaL_Reg) : M unit :=
  match reg_name reg, reg_func reg with
  | Some n, Some f =>
      do _ <- effect (fun L => lua_pushcfunction L f);
      lua_setfield (-2) n
  | _, _ => ret tt
  end.

(** [set_funcs(L, seq)] *)
Fixpoint set_funcs (seq : list luaL_Reg) : M unit :=
  match seq with
  | [] => ret tt
  | reg :: rest => do _ <- set_funcs_step reg; set_funcs rest
  end.



(** ** primer/container/visit_struct.hpp: pushing visitable structures *)

(** [detail::field_counter::operator()] and the count it ends with. *)
Definition field_counter_visit (count : Z) (m : string * host_value) : Z :=
  to_int (count + 1).

Definition field_count (members : list (string * host_value)) : Z :=
  fold_left field_counter_visit members 0%Z.

(** [detail::push_helper::operator()(name, value)]: push the member through
    its trait, then store it under its name in the table beneath. *)
Definition push_helper_visit (m : string * M unit) : M unit :=
  do _ <- snd m;
  lua_setfield (-2) (fst m).

(** [visit_struct::apply_visitor(vis, t)] for the pushing visitor. *)
Fixpoint apply_push (ms : list (string * M unit)) : M unit :=
  match ms with
  | [] => ret tt
  | m :: rest => do _ <- push_helper_visit m; apply_push rest
  end.

(** [traits::push<T>::to_stack(L, t)].  For a visitable structure: a new
    table sized by the field count, then the pushing visitor on every member.
    Modelled from the spec: the push trait of any other type pushes the one
    value that stands for the host value. *)
Fixpoint to_stack (t : host_value) : M unit :=
  match t with
  | host_prim v => effect (fun L => lua_pushvalue_of L v)
  | host_struct members =>
      do _ <- effect (fun L => lua_createtable L 0 (field_count members));
      apply_push (map (fun m => (fst m, to_stack (snd m))) members)
  end.

(** ** Vocabulary of the further properties *)

(** An unknown [maybe_int] that carries no stale value. *)
Definition canonical (m : MaybeInt.maybe_int) : Prop :=
  MaybeInt.unknown m = true -> m = MaybeInt.mk_unknown.

(** The value a reference stands for. *)
Definition deref (L : lua_State) (r : lua_ref) : lua_value :=
  match r with
  | ref _ k => lua_rawgeti_registry L k
  | empty_ref => VNil
  end.

(** A reference made in [L] keeps its value while the registry only grows. *)
Definition lasting (L : lua_State) (r : lua_ref) (v : lua_value) : Prop :=
  forall (L' : lua_State) (ext : list lua_value),
    registry L' = registry L ++ ext -> deref L' r = v.

(** What the host-side bookkeeping never touches. *)
Definition same_run (L L' : lua_State) : Prop :=
  calls L' = calls L /\ status L' = status L /\ cont L' = cont L
  /\ env_id L' = env_id L.

(** The environment a computation ends in, however it ends. *)
Definition final {A : Type} (r : res A) : lua_State :=
  match r with
  | Ok _ L => L
  | Raise _ _ L => L
  | BadAlloc L => L
  end.

(** The Lua value that stands for a host value: a structure is a table
    holding every member under its name. *)
Fixpoint encode (t : host_value) : lua_value :=
  match t with
  | host_prim v => v
  | host_struct members =>
      VTable (fold_left (fun fields m =>
                           table_set fields (fst m) (encode (snd m)))
                        members [])
  end.

(** The host value [t] is one the type [T] reads back: the members' names
    agree, no name comes twice, and [from_stack] of every other trait accepts
    the value its push trait pushed. *)
Fixpoint conforms (T : cpp_type) (t : host_value) : Prop :=
  match T with
  | leaf _ read =>
      forall (L : lua_State) (idx : Z),
        index2value L idx = encode t -> read L idx = expected_value t
  | visitable ms =>
      match t with
      | host_prim _ => False
      | host_struct vs =>
          NoDup (map fst vs)
          /\ (fix members_conform (ms : list (string * cpp_type))
                  (vs : list (string * host_value)) : Prop :=
                match ms, vs with
                | [], [] => True
                | m :: ms', v :: vs' =>
                    fst m = fst v /\ conforms (snd m) (snd v)
                    /\ members_conform ms' vs'
                | _, _ => False
                end) ms vs
      end
  end.

(** The fields a structure's table ends with, starting from [fields]. *)
Definition store_members (fields : list (string * lua_value))
           (ms : list (string * host_value)) : list (string * lua_value) :=
  fold_left (fun fields m => table_set fields (fst m) (encode (snd m)))
            ms fields.

(** The function a sequence of entries leaves under the name [k]: that of
    the last entry of that name with neither its name nor its function
    null. *)
Fixpoint registered (seq : list luaL_Reg) (k : string) : option nat :=
  match seq with
  | [] => None
  | reg :: rest =>
      match registered rest k with
      | Some f => Some f
      | None =>
          match reg_name reg, reg_func reg with
          | Some n, Some f => if String.eqb n k then Some f else None
          | _, _ => None
          end
      end
  end.


(** * Properties *)

(** ** Machine integers *)

Lemma to_int_id (z : Z) : in_int z -> to_int z = z.
Proof.
  unfold in_int, INT_MIN, INT_MAX, to_int. intros H.
  rewrite Z.mod_small; lia.
Qed.

(** ** The stack-budget estimator *)

Section Estimator.

Import MaybeInt.
Local Open Scope Z_scope.

Lemma max_int_spec (a b : Z) : max_int a b = Z.max a b.
Proof. unfold max_int. destruct (Z.gtb_spec a b); lia. Qed.

Lemma lifted_unknown (f : Z -> Z -> Z) (a b : maybe_int) :
  unknown (lifted f a b) = unknown a || unknown b.
Proof. unfold lifted, to_bool. destruct (unknown a), (unknown b); reflexivity. Qed.

Lemma lifted_unknown_eq (f : Z -> Z -> Z) (a b : maybe_int) :
  unknown (lifted f a b) = true -> lifted f a b = mk_unknown.
Proof. unfold lifted, to_bool. destruct (unknown a), (unknown b); simpl; congruence. Qed.

Lemma lifted_known (f : Z -> Z -> Z) (a b : maybe_int) :
  unknown a = false -> unknown b = false ->
  lifted f a b = mk (f (value a) (value b)).
Proof. unfold lifted, to_bool, deref. intros -> ->. reflexivity. Qed.

(** The fold of the lifted maximum is unknown as soon as one operand is. *)
Lemma max_unknown (xs : list operand) (a : operand) :
  unknown (max a xs) = true <->
  Exists (fun x => unknown (to_maybe_int x) = true) (a :: xs).
Proof.
  unfold max, lift. revert a. induction xs as [|b xs IH]; intros a; simpl.
  - rewrite Exists_cons, Exists_nil. tauto.
  - rewrite lifted_unknown, orb_true_iff, IH, (Exists_cons _ a). tauto.
Qed.

Lemma max_unknown_eq (xs : list operand) (a : operand) :
  unknown (to_maybe_int a) = false ->
  unknown (max a xs) = true -> max a xs = mk_unknown.
Proof.
  unfold max, lift. destruct xs as [|b xs]; simpl.
  - congruence.
  - intros _. apply lifted_unknown_eq.
Qed.

(** When every operand is known, it is their maximum. *)
Lemma max_known (xs : list operand) (a : operand) :
  unknown (max a xs) = false ->
  Forall (fun x => value (to_maybe_int x) <= value (max a xs)) (a :: xs)
  /\ Exists (fun x => value (max a xs) = value (to_maybe_int x)) (a :: xs).
Proof.
  unfold max, lift. revert a. induction xs as [|b xs IH]; intros a; simpl.
  - intros _. split; [repeat constructor; lia | constructor; reflexivity].
  - rewrite lifted_unknown, orb_false_iff. intros [Ha Hr].
    destruct (IH b Hr) as [Hle Hex].
    rewrite (lifted_known _ _ _ Ha Hr). simpl. rewrite max_int_spec.
    split.
    + constructor; [lia|].
      eapply Forall_impl; [exact Hle|]. simpl. intros; lia.
    + destruct (Z.max_spec (value (to_maybe_int a))
                  (value (right_associate (lifted max_int) b xs)))
        as [[_ ->]|[_ ->]].
      * apply Exists_cons_tl. exact Hex.
      * apply Exists_cons_hd. reflexivity.
Qed.

Lemma plus_int_unknown (m : maybe_int) (k : Z) :
  unknown (plus_int m k) = unknown m.
Proof.
  unfold plus_int, lift. rewrite lifted_unknown. simpl. apply orb_false_r.
Qed.

Lemma plus_int_known (m : maybe_int) (k : Z) :
  unknown m = false -> in_int k -> in_int (value m + k) ->
  value (plus_int m (to_int k)) = value m + k.
Proof.
  intros Hm Hk Hs. unfold plus_int, lift.
  rewrite lifted_known by (simpl; auto). simpl. unfold add_int.
  rewrite (to_int_id k) by exact Hk. apply to_int_id, Hs.
Qed.

Lemma push_each_terms_lookup (s : nat) (Args : list push_trait) (i : nat) :
  push_each_terms Args (seq s (length Args)) !! i
  = (fun T => of_maybe_int
                (plus_int (stack_space_needed T) (to_int (Z.of_nat (s + i)))))
      <$> (Args !! i).
Proof.
  unfold push_each_terms. rewrite lookup_zip_with.
  destruct (Args !! i) as [T|] eqn:E; simpl; [|reflexivity].
  rewrite lookup_seq_lt by (eapply lookup_lt_Some; eauto). reflexivity.
Qed.

Lemma impl_unknown (s : nat) (Args : list push_trait) :
  unknown (stack_push_each_helper_impl Args (seq s (length Args))) = true
  <-> exists (i : nat) (T : push_trait),
      Args !! i = Some T /\ unknown (stack_space_needed T) = true.
Proof.
  unfold stack_push_each_helper_impl. rewrite max_unknown, Exists_cons.
  split.
  - intros [H|H]; [discriminate H|].
    apply Exists_exists in H as (x & Hin & Hx).
    apply list_elem_of_lookup in Hin as [i Hi].
    rewrite push_each_terms_lookup in Hi.
    destruct (Args !! i) as [T|] eqn:E; simpl in Hi; [|discriminate].
    injection Hi as <-. simpl in Hx. rewrite plus_int_unknown in Hx.
    eauto.
  - intros (i & T & Hi & HT). right.
    apply Exists_exists.
    eexists. split.
    + apply list_elem_of_lookup. exists i.
      rewrite push_each_terms_lookup, Hi. reflexivity.
    + simpl. rewrite plus_int_unknown. exact HT.
Qed.

Lemma impl_spec (s : nat) (Args : list push_trait) :
  representable_from s Args ->
  let m := stack_push_each_helper_impl Args (seq s (length Args)) in
  (unknown m = true -> m = mk_unknown)
  /\ (unknown m = false ->
      0 <= value m
      /\ (forall (i : nat) (T : push_trait),
            Args !! i = Some T ->
            value (stack_space_needed T) + Z.of_nat (s + i) <= value m)
      /\ (value m = 0
          \/ exists (i : nat) (T : push_trait),
              Args !! i = Some T
              /\ value m = value (stack_space_needed T) + Z.of_nat (s + i))).
Proof.
  intros Hrep m. split.
  - apply max_unknown_eq. reflexivity.
  - intros Hk.
    assert (Hall : forall i T, Args !! i = Some T ->
                               unknown (stack_space_needed T) = false).
    { intros i T Hi. destruct (unknown (stack_space_needed T)) eqn:E; [|reflexivity].
      assert (unknown m = true) by (apply impl_unknown; eauto). congruence. }
    destruct (max_known _ _ Hk) as [Hle Hex]. fold m in Hle, Hex.
    apply Forall_cons in Hle as [H0 Hle]. simpl in H0.
    rewrite Forall_lookup in Hle.
    split; [exact H0|]. split.
    + intros i T Hi.
      specialize (Hle i _ ltac:(rewrite push_each_terms_lookup, Hi; reflexivity)).
      simpl in Hle. destruct (Hrep i T Hi (Hall i T Hi)) as (_ & Hi1 & Hi2).
      rewrite plus_int_known in Hle by eauto. exact Hle.
    + apply Exists_cons in Hex as [Hex|Hex]; [left; exact Hex|right].
      apply Exists_exists in Hex as (x & Hin & Hx).
      apply list_elem_of_lookup in Hin as [i Hi].
      rewrite push_each_terms_lookup in Hi.
      destruct (Args !! i) as [T|] eqn:E; simpl in Hi; [|discriminate].
      injection Hi as <-. simpl in Hx.
      destruct (Hrep i T E (Hall i T E)) as (_ & Hi1 & Hi2).
      rewrite plus_int_known in Hx by eauto. eauto.
Qed.

End Estimator.

(** ** The VM's stack primitives *)

Ltac unfold_setters :=
  unfold lua_pushvalue_of, set_stack, set_slots, set_registry, set_host_mem,
    set_status, log_call in *.

(** Two states built from the same environment differ by the fields that were
    set. *)
Ltac state_eq := unfold_setters; simpl; f_equal.

(** Name the natural number an index expression stands for. *)
Ltac to_nat_is n :=
  match goal with
  | |- context [Z.to_nat ?e] => replace (Z.to_nat e) with n by lia
  end.

Lemma set_stack_id (L : lua_State) : set_stack L (stack L) = L.
Proof. destruct L; reflexivity. Qed.

Lemma lua_absindex_neg (L : lua_State) (idx : Z) :
  (idx <= 0)%Z -> lua_absindex L idx = (lua_gettop L + 1 + idx)%Z.
Proof. unfold lua_absindex. destruct (Z.gtb_spec idx 0); [lia|reflexivity]. Qed.

Lemma lua_absindex_pos (L : lua_State) (idx : Z) :
  (0 < idx)%Z -> lua_absindex L idx = idx.
Proof. unfold lua_absindex. destruct (Z.gtb_spec idx 0); [reflexivity|lia]. Qed.

Lemma index2value_at (L : lua_State) (below above : list lua_value)
      (x : lua_value) (idx : Z) :
  stack L = below ++ x :: above ->
  lua_absindex L idx = (Z.of_nat (length below) + 1)%Z ->
  index2value L idx = x.
Proof.
  intros Hs Hi. unfold index2value. rewrite Hi, Hs.
  destruct (Z.leb_spec 1 (Z.of_nat (length below) + 1)); [|lia].
  to_nat_is (length below).
  rewrite list_lookup_middle by reflexivity. reflexivity.
Qed.

Lemma index2value_top (L : lua_State) (below : list lua_value) (x : lua_value) :
  stack L = below ++ [x] -> index2value L (-1) = x.
Proof.
  intros Hs. apply (index2value_at L below []); [exact Hs|].
  rewrite lua_absindex_neg by lia. unfold lua_gettop.
  rewrite Hs, length_app. simpl. lia.
Qed.

Lemma lua_remove_at (L : lua_State) (below above : list lua_value)
      (x : lua_value) (idx : Z) :
  stack L = below ++ x :: above ->
  lua_absindex L idx = (Z.of_nat (length below) + 1)%Z ->
  lua_remove L idx = set_stack L (below ++ above).
Proof.
  intros Hs Hi. unfold lua_remove. rewrite Hi, Hs.
  to_nat_is (length below).
  rewrite delete_middle. reflexivity.
Qed.

Lemma lua_insert_at (L : lua_State) (below above : list lua_value)
      (v : lua_value) (idx : Z) :
  stack L = below ++ above ++ [v] ->
  lua_absindex L idx = (Z.of_nat (length below) + 1)%Z ->
  lua_insert L idx = set_stack L (below ++ v :: above).
Proof.
  intros Hs Hi. unfold lua_insert. rewrite Hi, Hs.
  to_nat_is (length below).
  rewrite app_assoc, reverse_snoc, reverse_involutive.
  rewrite take_app_length, drop_app_length. reflexivity.
Qed.

Lemma lua_settop_length (L : lua_State) (n : Z) :
  (0 <= n)%Z -> lua_gettop (lua_settop L n) = n.
Proof.
  intros Hn. unfold lua_settop, lua_gettop.
  destruct (Z.leb_spec 0 n); [|lia]. simpl.
  rewrite length_take, length_app, length_replicate. lia.
Qed.

Lemma lua_pop_top (L : lua_State) (below : list lua_value) (x : lua_value) :
  stack L = below ++ [x] -> lua_pop L 1 = set_stack L below.
Proof.
  intros Hs. unfold lua_pop, lua_settop, lua_gettop. simpl.
  rewrite Hs, length_app. simpl.
  to_nat_is (length below).
  rewrite take_app_length. reflexivity.
Qed.

Lemma lua_pop_empty (L : lua_State) : stack L = [] -> lua_pop L 1 = L.
Proof.
  intros Hs. unfold lua_pop, lua_settop, lua_gettop. simpl.
  rewrite Hs. simpl. rewrite <- Hs. apply set_stack_id.
Qed.

Lemma fetch_traceback_function_pushes (L : lua_State) :
  fetch_traceback_function L = lua_pushvalue_of L VTraceback.
Proof.
  unfold fetch_traceback_function, luaopen_debug, lua_getfield.
  set (tbl := VTable [("traceback", VTraceback)]).
  rewrite (index2value_top _ (stack L) tbl) by reflexivity.
  subst tbl. simpl.
  rewrite (lua_remove_at _ (stack L) [VTraceback]
             (VTable [("traceback", VTraceback)])).
  - state_eq.
  - simpl. rewrite <- app_assoc. reflexivity.
  - rewrite lua_absindex_neg by lia. unfold lua_gettop. simpl.
    rewrite !length_app. simpl. lia.
Qed.

Lemma lua_pcall_at (L : lua_State) (below args : list lua_value)
      (f : lua_value) (nargs nresults msgh : Z) :
  stack L = below ++ f :: args ->
  nargs = Z.of_nat (length args) ->
  lua_pcall L nargs nresults msgh
  = match call_value L f args with
    | vm_return rs =>
        (set_stack (log_call L f args) (below ++ adjust_results nresults rs),
         LUA_OK)
    | vm_error k e =>
        let '(k', e') := handle_error L msgh k e in
        (set_stack (log_call L f args) (below ++ [e']), err_code k')
    end.
Proof.
  intros Hs ->. unfold lua_pcall. rewrite Hs, length_app. simpl.
  rewrite Nat2Z.id.
  replace (length below + S (length args) - length args - 1)%nat
    with (length below) by lia.
  rewrite take_app_length, list_lookup_middle by reflexivity. simpl.
  replace (below ++ f :: args) with ((below ++ [f]) ++ args)
    by (rewrite <- app_assoc; reflexivity).
  rewrite (drop_app_length' (below ++ [f]) args)
    by (rewrite length_app; simpl; lia).
  reflexivity.
Qed.

(** ** The protected call *)

Lemma call_value_set_stack (L : lua_State) (st : list lua_value)
      (f : lua_value) (args : list lua_value) :
  call_value (set_stack L st) f args = call_value L f args.
Proof. destruct f; reflexivity. Qed.

Lemma gettop_app (L : lua_State) (l1 l2 : list lua_value) :
  stack L = l1 ++ l2 ->
  lua_gettop L = (Z.of_nat (length l1) + Z.of_nat (length l2))%Z.
Proof. intros Hs. unfold lua_gettop. rewrite Hs, length_app. lia. Qed.

Lemma pcall_helper_at (L : lua_State) (below args : list lua_value)
      (f : lua_value) (narg nret : Z) :
  stack L = below ++ f :: args ->
  narg = Z.of_nat (length args) ->
  pcall_helper narg nret L
  = match call_value L f args with
    | vm_return rs =>
        (set_stack (log_call L f args) (below ++ adjust_results nret rs),
         (LUA_OK, Z.of_nat (length below) + 1)%Z)
    | vm_error k e =>
        (set_stack (log_call L f args) (below ++ [intercepted L k e]),
         (err_code k, Z.of_nat (length below) + 1)%Z)
    end.
Proof.
  intros Hs Hn. unfold pcall_helper, push_cached.
  rewrite fetch_traceback_function_pushes.
  assert (Hidx : forall st, st = below ++ VTraceback :: f :: args \/
                            st = below ++ (f :: args) ++ [VTraceback] ->
            lua_absindex (set_stack L st) (-2 - narg)
            = (Z.of_nat (length below) + 1)%Z).
  { intros st Hst. rewrite lua_absindex_neg by lia. unfold lua_gettop. simpl.
    destruct Hst as [-> | ->]; rewrite !length_app; simpl;
      try rewrite length_app; simpl; lia. }
  rewrite (lua_insert_at _ below (f :: args) VTraceback).
  - replace (set_stack (lua_pushvalue_of L VTraceback)
               (below ++ VTraceback :: f :: args))
      with (set_stack L (below ++ VTraceback :: f :: args)) by state_eq.
    rewrite Hidx by auto.
    rewrite (lua_pcall_at _ (below ++ [VTraceback]) args f)
      by (simpl; rewrite <- ?app_assoc; auto).
    rewrite call_value_set_stack.
    destruct (call_value L f args) as [rs|k e].
    + rewrite (lua_remove_at _ below (adjust_results nret rs) VTraceback).
      * reflexivity.
      * simpl. rewrite <- app_assoc. reflexivity.
      * apply lua_absindex_pos. lia.
    + assert (Hh : handle_error
                     (set_stack L (below ++ VTraceback :: f :: args))
                     (Z.of_nat (length below) + 1) k e
                   = (k, intercepted L k e)).
      { unfold handle_error.
        destruct (Z.eqb_spec (Z.of_nat (length below) + 1) 0); [lia|].
        destruct k; try reflexivity.
        rewrite (index2value_at _ below (f :: args) VTraceback).
        - reflexivity.
        - reflexivity.
        - apply lua_absindex_pos. lia. }
      rewrite Hh.
      rewrite (lua_remove_at _ below [intercepted L k e] VTraceback).
      * reflexivity.
      * simpl. rewrite <- app_assoc. reflexivity.
      * apply lua_absindex_pos. lia.
  - simpl. rewrite Hs, <- app_assoc. reflexivity.
  - unfold lua_pushvalue_of. rewrite (Hidx (stack L ++ [VTraceback])); [reflexivity|].
    right. rewrite Hs, <- app_assoc. reflexivity.
Qed.

(** ** Capturing and draining values *)

Lemma lua_pop_stack (L : lua_State) :
  stack (lua_pop L 1) = take (length (stack L) - 1) (stack L).
Proof.
  unfold lua_pop, lua_settop, lua_gettop. simpl.
  to_nat_is (length (stack L) - 1)%nat. reflexivity.
Qed.

(** Capturing the top value: it is popped and held by the registry; only a
    value other than nil needs memory. *)
Lemma lua_ref_ctor_top (L : lua_State) (below : list lua_value) (v : lua_value) :
  stack L = below ++ [v] ->
  v = VNil \/ vm_mem L <> 0 ->
  exists (k : Z) (L' : lua_State),
    lua_ref_ctor false L = Ok (ref (env_id L) k) L'
    /\ stack L' = below
    /\ lua_rawgeti_registry L' k = v
    /\ host_mem L' = host_mem L
    /\ vm_mem L <= S (vm_mem L')
    /\ calls L' = calls L.
Proof.
  intros Hs Hv. unfold lua_ref_ctor, bind, luaL_ref, observe.
  rewrite (index2value_top L below v Hs), (lua_pop_top L below v Hs).
  destruct v;
    try (destruct (vm_mem L) as [|m] eqn:Em; [destruct Hv; congruence|];
         rewrite (lua_pop_top _ below _) by (simpl; rewrite Hs; reflexivity);
         eexists _, _; split; [reflexivity|]; simpl;
         repeat split; try lia;
         unfold lua_rawgeti_registry; simpl;
         destruct (Z.ltb_spec (Z.of_nat (length (registry L))) 0); [lia|];
         rewrite Nat2Z.id, list_lookup_middle by reflexivity; reflexivity).
  exists LUA_REFNIL, (set_stack L below). simpl. repeat split; lia.
Qed.

Lemma lua_ref_ctor_raises (L : lua_State) :
  forall k e L', lua_ref_ctor false L = Raise k e L' -> vm_mem L = 0.
Proof.
  intros k e L'. unfold lua_ref_ctor, bind, luaL_ref, observe.
  destruct (index2value L (-1)); try discriminate;
    destruct (vm_mem L); try discriminate; reflexivity.
Qed.

Lemma lua_ref_ctor_no_bad_alloc (L L' : lua_State) :
  lua_ref_ctor false L <> BadAlloc L'.
Proof.
  unfold lua_ref_ctor, bind, luaL_ref, observe.
  destruct (index2value L (-1)); try discriminate;
    destruct (vm_mem L); discriminate.
Qed.

Lemma lua_ref_ctor_mem (L L' : lua_State) (r : lua_ref) :
  lua_ref_ctor false L = Ok r L' ->
  vm_mem L <= S (vm_mem L') /\ host_mem L' = host_mem L.
Proof.
  unfold lua_ref_ctor, bind, luaL_ref, observe.
  destruct (index2value L (-1));
    try (destruct (vm_mem L) eqn:E; [discriminate|]);
    intros [= _ <-]; simpl; split; lia.
Qed.

Lemma pop_n_loop_S (n : nat) (acc : lua_ref_seq) (L : lua_State) :
  pop_n_loop (S n) acc L
  = match host_mem L with
    | O => BadAlloc L
    | S m =>
        match lua_ref_ctor false (set_host_mem L m) with
        | Ok r L1 => pop_n_loop n (r :: acc) L1
        | Raise k e L1 => Raise k e L1
        | BadAlloc L1 => BadAlloc L1
        end
    end.
Proof.
  cbn [pop_n_loop]. unfold bind at 1, host_alloc.
  destruct (host_mem L); reflexivity.
Qed.

(** Draining [n] values, with memory for each of them. *)
Lemma pop_n_loop_ok (n : nat) :
  forall (acc : lua_ref_seq) (L : lua_State) (below vs : list lua_value),
    stack L = below ++ vs ->
    length vs = n ->
    n <= vm_mem L ->
    n <= host_mem L ->
    exists (s : lua_ref_seq) (L' : lua_State),
      pop_n_loop n acc L = Ok s L'
      /\ stack L' = below
      /\ length s = n + length acc.
Proof.
  induction n as [|n IH]; intros acc L below vs Hs Hl Hv Hh.
  - destruct vs; [|discriminate]. rewrite app_nil_r in Hs.
    exists acc, L. auto.
  - destruct (exists_last (l := vs)) as (vs' & v & ->).
    { intros ->. discriminate. }
    rewrite length_app in Hl. simpl in Hl.
    rewrite pop_n_loop_S.
    destruct (host_mem L) as [|hm] eqn:Eh; [lia|].
    destruct (lua_ref_ctor_top (set_host_mem L hm) (below ++ vs') v)
      as (k & L1 & -> & Hs1 & _ & Hh1 & Hv1 & _).
    { simpl. rewrite Hs, app_assoc. reflexivity. }
    { right. simpl. lia. }
    simpl in Hh1, Hv1.
    destruct (IH (ref (env_id (set_host_mem L hm)) k :: acc) L1 below vs')
      as (s & L' & Hr & Hs' & Hlen); try lia; auto.
    exists s, L'. repeat split; auto. simpl in Hlen. lia.
Qed.

(** Draining never leaves through a Lua error while the VM has memory. *)
Lemma pop_n_loop_mem (n : nat) :
  forall (acc : lua_ref_seq) (L : lua_State),
    n <= vm_mem L ->
    (exists s L', pop_n_loop n acc L = Ok s L')
    \/ (exists L', pop_n_loop n acc L = BadAlloc L').
Proof.
  induction n as [|n IH]; intros acc L Hv.
  - left. cbn [pop_n_loop]. unfold ret. eauto.
  - rewrite pop_n_loop_S.
    destruct (host_mem L) as [|hm]; [right; eauto|].
    destruct (lua_ref_ctor false (set_host_mem L hm)) as [r L1|k e L1|L1] eqn:E.
    + apply lua_ref_ctor_mem in E as [E _]. simpl in E.
      apply IH. lia.
    + apply lua_ref_ctor_raises in E. simpl in E. lia.
    + exfalso. eapply lua_ref_ctor_no_bad_alloc, E.
Qed.

(** ** Calls and resumes *)

Lemma err_code_not_ok (k : vm_err) : (err_code k =? LUA_OK)%Z = false.
Proof. destruct k; reflexivity. Qed.

Lemma err_code_not_yield (k : vm_err) : (err_code k =? LUA_YIELD)%Z = false.
Proof. destruct k; reflexivity. Qed.

Lemma adjust_results_length (n : Z) (rs : list lua_value) :
  (0 <= n)%Z -> length (adjust_results n rs) = Z.to_nat n.
Proof.
  intros Hn. unfold adjust_results, LUA_MULTRET.
  destruct (Z.eqb_spec n (-1)); [lia|].
  rewrite length_take, length_app, length_replicate. lia.
Qed.

(** A call the VM fails: the error value is converted and popped. *)
Lemma fcn_call_error (T : return_kind) (L : lua_State)
      (below args : list lua_value) (f : lua_value) (k : vm_err) (e : lua_value) :
  stack L = below ++ f :: args ->
  call_value L f args = vm_error k e ->
  fcn_call T (Z.of_nat (length args)) L
  = Ok (expected_error
          {| what := error_text (err_code k) (intercepted L k e) |})
       (set_stack (log_call L f args) below).
Proof.
  intros Hs Hc. unfold fcn_call, bind, effect_of.
  rewrite (pcall_helper_at L below args f) by auto. rewrite Hc.
  rewrite err_code_not_ok. simpl. unfold pop_error.
  rewrite (index2value_top _ below (intercepted L k e)) by reflexivity.
  rewrite (lua_pop_top _ below (intercepted L k e)) by reflexivity.
  unfold ret. f_equal.
Qed.

(** A call the VM completes: the results are drained into the result. *)
Lemma fcn_call_success (T : return_kind) (L : lua_State)
      (below args rs : list lua_value) (f : lua_value) :
  stack L = below ++ f :: args ->
  call_value L f args = vm_return rs ->
  length (adjust_results (nrets T) rs) <= vm_mem L ->
  length (adjust_results (nrets T) rs) <= host_mem L ->
  exists (r : return_type T) (L' : lua_State),
    fcn_call T (Z.of_nat (length args)) L = Ok (expected_value r) L'
    /\ stack L' = below
    /\ retained (expected_value r) = length (adjust_results (nrets T) rs).
Proof.
  intros Hs Hc Hv Hh. unfold fcn_call, bind, effect_of.
  rewrite (pcall_helper_at L below args f) by auto. rewrite Hc.
  change (negb (LUA_OK =? LUA_OK)%Z) with false. cbv iota.
  set (L1 := set_stack (log_call L f args)
                       (below ++ adjust_results (nrets T) rs)).
  destruct T; unfold return_helper_pop.
  - exists tt, L1. unfold ret. repeat split.
    subst L1. simpl. unfold adjust_results. simpl. apply app_nil_r.
  - pose proof (adjust_results_length 1 rs ltac:(lia)) as Hl.
    simpl nrets in *.
    destruct (adjust_results 1 rs) as [|x [|? ?]] eqn:Ea; try discriminate.
    destruct (lua_ref_ctor_top L1 below x) as (key & L' & Hr & Hs' & _).
    { reflexivity. }
    { right. subst L1. simpl in *. lia. }
    unfold bind. rewrite Hr. unfold ret.
    exists (ref (env_id L1) key), L'. repeat split. exact Hs'.
  - simpl nrets in *. unfold adjust_results in *. simpl in Hv, Hh.
    unfold try_bad_alloc, bind, observe, pop_n.
    replace (Z.to_nat (lua_gettop L1 - (Z.of_nat (length below) + 1) + 1))
      with (length rs)
      by (unfold lua_gettop; subst L1; simpl; rewrite length_app; lia).
    destruct (pop_n_loop_ok (length rs) [] L1 below rs)
      as (s & L' & Hr & Hs' & Hlen); auto.
    rewrite Hr. unfold ret. exists s, L'. repeat split; auto.
    simpl in *. lia.
Qed.

(** What [lua_resume] leaves: on a failure, the error value on top. *)
Lemma lua_resume_facts (L L1 : lua_State) (narg code : Z) :
  lua_resume L narg = (L1, code) ->
  vm_mem L1 = vm_mem L
  /\ traceback L1 = traceback L
  /\ ((code =? LUA_OK)%Z || (code =? LUA_YIELD)%Z = true
      \/ ((code =? LUA_OK)%Z || (code =? LUA_YIELD)%Z = false
          /\ exists residue e, stack L1 = residue ++ [e])).
Proof.
  unfold lua_resume.
  destruct (resume_target L narg) as [[[f below] args]|].
  - destruct (vm_resume L f args) as [rs|rs k|c residue e];
      intros [= <- <-]; simpl; repeat split; auto.
    right. rewrite err_code_not_ok, err_code_not_yield. eauto.
  - intros [= <- <-]. simpl. repeat split; eauto.
Qed.

(** The interceptor run by [resume_helper] over a failure. *)
Lemma resume_helper_error (L L1 : lua_State) (narg code : Z)
      (residue : list lua_value) (e : lua_value) :
  lua_resume L narg = (L1, code) ->
  (code =? LUA_OK)%Z || (code =? LUA_YIELD)%Z = false ->
  stack L1 = residue ++ [e] ->
  resume_helper narg L
  = Ok (code, lua_absindex L (-1 - narg))
       (set_stack (log_call L1 VTraceback [e]) (residue ++ [traceback L e])).
Proof.
  intros Hr Hc Hs. unfold resume_helper, bind, observe, effect_of, effect.
  rewrite Hr. apply orb_false_iff in Hc as [-> ->].
  change (negb false && negb false) with true. cbv beta iota.
  unfold push_cached. rewrite fetch_traceback_function_pushes.
  rewrite (lua_insert_at _ residue [e] VTraceback).
  - unfold lua_call. simpl stack. rewrite length_app. simpl length.
    replace (length residue + 2 - Z.to_nat 1 - 1)%nat with (length residue)
      by lia.
    rewrite take_app_length, list_lookup_middle by reflexivity.
    replace (residue ++ [VTraceback; e]) with ((residue ++ [VTraceback]) ++ [e])
      by (rewrite <- app_assoc; reflexivity).
    rewrite (drop_app_length' (residue ++ [VTraceback]) [e])
      by (rewrite length_app; simpl; lia).
    simpl. unfold ret. f_equal.
    destruct (lua_resume_facts _ _ _ _ Hr) as (_ & Ht & _).
    unfold adjust_results. simpl. rewrite Ht. state_eq.
  - simpl. rewrite Hs, <- app_assoc. reflexivity.
  - rewrite lua_absindex_neg by lia. unfold lua_gettop. simpl.
    rewrite Hs, !length_app. simpl. lia.
Qed.

Lemma resume_helper_ok (L L1 : lua_State) (narg code : Z) :
  lua_resume L narg = (L1, code) ->
  (code =? LUA_OK)%Z || (code =? LUA_YIELD)%Z = true ->
  resume_helper narg L = Ok (code, lua_absindex L (-1 - narg)) L1.
Proof.
  intros Hr Hc. unfold resume_helper, bind, observe, effect_of, effect.
  rewrite Hr.
  replace (negb (code =? LUA_OK)%Z && negb (code =? LUA_YIELD)%Z) with false.
  - reflexivity.
  - destruct (code =? LUA_OK)%Z, (code =? LUA_YIELD)%Z; simpl in *; congruence.
Qed.

(** [resume_call] ends by setting the top. *)
Lemma resume_call_depth (T : return_kind) (narg : Z) (L L' : lua_State)
      (r : expected (return_type T)) :
  (0 <= narg < lua_gettop L)%Z ->
  resume_call T narg L = Ok r L' ->
  lua_gettop L' = (lua_gettop L - narg - 1)%Z.
Proof.
  intros Hn. unfold resume_call. unfold bind at 1.
  destruct (lua_resume L narg) as [L1 code] eqn:Hr.
  assert (Hh : exists L2, resume_helper narg L
                          = Ok (code, lua_absindex L (-1 - narg)) L2).
  { destruct (lua_resume_facts _ _ _ _ Hr) as (_ & _ & [Hc|[Hc (res & e & Hs)]]).
    - eexists. apply resume_helper_ok; eauto.
    - eexists. eapply resume_helper_error; eauto. }
  destruct Hh as [L2 ->]. unfold bind at 1.
  match goal with
  | |- context [(if ?b then ?x else ?y) L2] =>
      destruct ((if b then x else y) L2) as [res L3|? ? ?|?]
  end; try discriminate.
  unfold bind, effect, ret. intros [= _ <-].
  rewrite lua_settop_length; rewrite lua_absindex_neg; lia.
Qed.

Lemma resume_call_error (T : return_kind) (L L1 : lua_State) (narg code : Z)
      (residue : list lua_value) (e : lua_value) :
  lua_resume L narg = (L1, code) ->
  (code =? LUA_OK)%Z || (code =? LUA_YIELD)%Z = false ->
  stack L1 = residue ++ [e] ->
  resume_call T narg L
  = Ok (expected_error {| what := error_text code (traceback L e) |})
       (lua_settop (set_stack (log_call L1 VTraceback [e]) residue)
                   (lua_absindex L (-1 - narg) - 1)).
Proof.
  intros Hr Hc Hs. unfold resume_call. unfold bind at 1.
  rewrite (resume_helper_error L L1 narg code residue e Hr Hc Hs).
  rewrite Hc. unfold bind, effect_of, effect, ret, pop_error.
  rewrite (index2value_top _ residue (traceback L e)) by reflexivity.
  rewrite (lua_pop_top _ residue (traceback L e)) by reflexivity.
  f_equal.
Qed.

Lemma lua_ref_ctor_empty (L : lua_State) :
  stack L = [] -> lua_ref_ctor false L = Ok (ref (env_id L) LUA_REFNIL) L.
Proof.
  intros Hs. unfold lua_ref_ctor, bind, luaL_ref, observe, index2value,
    lua_absindex, lua_gettop.
  rewrite Hs. simpl. rewrite lua_pop_empty by exact Hs. reflexivity.
Qed.

(** Draining returns whenever the VM has memory for every value on the
    stack; a host allocation failure is absorbed into the result. *)
Lemma return_helper_pop_returns (T : return_kind) (idx : Z) (L : lua_State) :
  (1 <= idx)%Z ->
  (lua_gettop L <= Z.of_nat (vm_mem L))%Z ->
  exists r L', return_helper_pop T idx L = Ok r L'.
Proof.
  intros Hi Hm. destruct T; unfold return_helper_pop.
  - unfold ret. eauto.
  - unfold bind, ret.
    destruct (stack L) as [|x st] eqn:Hs.
    + rewrite lua_ref_ctor_empty by exact Hs. eauto.
    + destruct (exists_last (l := x :: st)) as (below & v & Hl); [discriminate|].
      rewrite Hl in Hs.
      destruct (lua_ref_ctor_top L below v Hs) as (k & L' & -> & _).
      * right. unfold lua_gettop in Hm. rewrite Hs, length_app in Hm.
        simpl in Hm. lia.
      * eauto.
  - unfold try_bad_alloc, bind, observe, pop_n, ret.
    set (n := Z.to_nat (lua_gettop L - idx + 1)).
    destruct (pop_n_loop_mem n [] L) as [(s & L' & ->)|(L' & ->)]; eauto.
    subst n. lia.
Qed.

Lemma resume_call_returns (T : return_kind) (L L1 : lua_State) (narg code : Z) :
  (0 <= narg < lua_gettop L)%Z ->
  lua_resume L narg = (L1, code) ->
  ((code =? LUA_OK)%Z || (code =? LUA_YIELD)%Z = true ->
   (lua_gettop L1 <= Z.of_nat (vm_mem L))%Z) ->
  exists r L', resume_call T narg L = Ok r L'.
Proof.
  intros Hn Hr Hm.
  destruct (lua_resume_facts _ _ _ _ Hr) as (Hv & _ & [Hc|[Hc (res & e & Hs)]]).
  - unfold resume_call. unfold bind at 1.
    rewrite (resume_helper_ok L L1 narg code Hr Hc). rewrite Hc.
    destruct (return_helper_pop_returns T (lua_absindex L (-1 - narg)) L1)
      as (r & L2 & Hp);
      [rewrite lua_absindex_neg; lia|rewrite Hv; exact (Hm Hc)|].
    unfold bind, effect, ret. rewrite Hp. eauto.
  - rewrite (resume_call_error T L L1 narg code res e Hr Hc Hs). eauto.
Qed.

(** ** Reading visitable structures *)

(** Induction over readable types, through the member lists. *)
Fixpoint cpp_type_nested_ind (P : cpp_type -> Prop)
         (Hleaf : forall d r, P (leaf d r))
         (Hvis : forall ms, Forall (fun m => P (snd m)) ms -> P (visitable ms))
         (T : cpp_type) : P T :=
  match T with
  | leaf d r => Hleaf d r
  | visitable ms =>
      Hvis ms
           ((fix go (ms : list (string * cpp_type))
               : Forall (fun m => P (snd m)) ms :=
               match ms with
               | [] => List.Forall_nil _
               | m :: rest =>
                   @List.Forall_cons _ (fun m => P (snd m)) m rest
                     (cpp_type_nested_ind P Hleaf Hvis (snd m)) (go rest)
               end) ms)
  end.

Lemma lua_getfield_pop (L : lua_State) (idx : Z) (name : string) :
  lua_pop (lua_getfield L idx name) 1 = L.
Proof.
  unfold lua_getfield.
  destruct (index2value L idx);
    (rewrite (lua_pop_top _ (stack L) _) by reflexivity);
    destruct L; reflexivity.
Qed.

Lemma read_helper_visit_skip (vis : read_helper) (m : member) (L : lua_State) :
  is_value (ok vis) = false ->
  fst (read_helper_visit vis m L) = (L, vis).
Proof.
  intros H. unfold read_helper_visit. destruct m as [[name fs] d].
  rewrite H. reflexivity.
Qed.

Lemma read_helper_visit_ok (vis : read_helper) (m : member) (L : lua_State) :
  neutral m ->
  is_value (ok vis) = true ->
  is_value (member_read L (index vis) m) = true ->
  fst (read_helper_visit vis m L) = (L, vis).
Proof.
  intros Hn Hok Hr. unfold read_helper_visit, member_read, neutral in *.
  destruct m as [[name fs] d]. simpl in *. rewrite Hok. simpl.
  specialize (Hn (lua_getfield L (index vis) name) (-1)%Z).
  destruct (fs (lua_getfield L (index vis) name) (-1)%Z) as [L' res].
  simpl in *. subst L'. rewrite lua_getfield_pop.
  destruct res; [reflexivity|discriminate].
Qed.

Lemma read_helper_visit_error (vis : read_helper) (m : member) (L : lua_State)
      (e : error) :
  neutral m ->
  is_value (ok vis) = true ->
  member_read L (index vis) m = expected_error e ->
  fst (read_helper_visit vis m L)
  = (L, {| index := index vis;
           ok := expected_error
                   (prepend_error_line e
                      ["In field name '"; fst (fst m); "',"]) |}).
Proof.
  intros Hn Hok Hr. unfold read_helper_visit, member_read, neutral in *.
  destruct m as [[name fs] d]. simpl in *. rewrite Hok. simpl.
  specialize (Hn (lua_getfield L (index vis) name) (-1)%Z).
  destruct (fs (lua_getfield L (index vis) name) (-1)%Z) as [L' res].
  simpl in *. subst L' res. rewrite lua_getfield_pop. reflexivity.
Qed.

Lemma apply_visitor_cons (vis : read_helper) (m : member) (ms : list member)
      (L : lua_State) :
  fst (apply_visitor vis (m :: ms) L)
  = fst (apply_visitor (snd (fst (read_helper_visit vis m L))) ms
                       (fst (fst (read_helper_visit vis m L)))).
Proof.
  simpl. destruct (read_helper_visit vis m L) as [[L1 vis1] v]. simpl.
  destruct (apply_visitor vis1 ms L1) as [[L2 vis2] vs]. reflexivity.
Qed.

(** Once a member has failed, the later ones are passed over. *)
Lemma apply_visitor_skip (ms : list member) (vis : read_helper) (L : lua_State) :
  is_value (ok vis) = false ->
  fst (apply_visitor vis ms L) = (L, vis).
Proof.
  revert vis L. induction ms as [|m ms IH]; intros vis L H; [reflexivity|].
  rewrite apply_visitor_cons, read_helper_visit_skip by exact H. simpl.
  apply IH, H.
Qed.

(** The first member that fails decides the outcome. *)
Lemma apply_visitor_first_error (pre post : list member) (m : member)
      (vis : read_helper) (L : lua_State) (e : error) :
  Forall neutral pre -> neutral m ->
  is_value (ok vis) = true ->
  Forall (fun m' => is_value (member_read L (index vis) m') = true) pre ->
  member_read L (index vis) m = expected_error e ->
  fst (apply_visitor vis (pre ++ m :: post) L)
  = (L, {| index := index vis;
           ok := expected_error
                   (prepend_error_line e
                      ["In field name '"; fst (fst m); "',"]) |}).
Proof.
  intros Hnp Hnm Hok Hpre Hm.
  induction pre as [|p pre IH]; simpl app.
  - rewrite apply_visitor_cons, (read_helper_visit_error vis m L e) by auto.
    simpl.
    apply apply_visitor_skip. reflexivity.
  - apply Forall_cons in Hnp as [Hp Hnp]. apply Forall_cons in Hpre as [Hrp Hpre].
    rewrite apply_visitor_cons, read_helper_visit_ok by eauto. simpl.
    apply IH; auto.
Qed.

Lemma apply_visitor_neutral (ms : list member) :
  Forall neutral ms ->
  forall (vis : read_helper) (L : lua_State),
    fst (fst (apply_visitor vis ms L)) = L.
Proof.
  induction ms as [|m ms IH]; intros Hn vis L; [reflexivity|].
  apply Forall_cons in Hn as [Hm Hn].
  rewrite apply_visitor_cons.
  assert (Hv : fst (fst (read_helper_visit vis m L)) = L).
  { destruct (is_value (ok vis)) eqn:Hok.
    - destruct (member_read L (index vis) m) as [v|e] eqn:Hr.
      + rewrite read_helper_visit_ok; auto. rewrite Hr. reflexivity.
      + erewrite read_helper_visit_error; eauto.
    - rewrite read_helper_visit_skip; auto. }
  rewrite Hv. apply IH, Hn.
Qed.

(** Reading leaves the stack as it found it. *)
Lemma from_stack_neutral (T : cpp_type) :
  forall (L : lua_State) (i : Z), fst (from_stack T L i) = L.
Proof.
  induction T as [d r|ms IH] using cpp_type_nested_ind; intros L i.
  - reflexivity.
  - simpl. destruct (lua_istable L (lua_absindex L i)); [|reflexivity]. simpl.
    match goal with
    | |- context [apply_visitor ?v ?l L] =>
        pose proof (apply_visitor_neutral l) as Hn;
        specialize (fun H => Hn H v L);
        destruct (apply_visitor v l L) as [[L' vis'] vs]
    end.
    simpl in *. apply Hn.
    apply Forall_map. eapply Forall_impl; [exact IH|].
    intros m Hm L0 i0. simpl. apply Hm.
Qed.

(** A structure whose first unreadable member is [f]: the member's error comes
    back with the member's name in front. *)
Lemma from_stack_member_error (pre post : list (string * cpp_type))
      (f : string) (T : cpp_type) (L : lua_State) (idx : Z) (e : error) :
  lua_istable L (lua_absindex L idx) = true ->
  Forall (reads_well L (lua_absindex L idx)) pre ->
  snd (from_stack T (lua_getfield L (lua_absindex L idx) f) (-1)%Z)
  = expected_error e ->
  from_stack (visitable (pre ++ (f, T) :: post)) L idx
  = (L, expected_error (prepend_error_line e ["In field name '"; f; "',"])).
Proof.
  intros Ht Hpre He. simpl. rewrite Ht. simpl.
  rewrite map_app. simpl map.
  match goal with
  | |- context [apply_visitor ?v (?p ++ ?m :: ?q) L] =>
      assert (H : fst (apply_visitor v (p ++ m :: q) L)
                  = (L, {| index := index v;
                           ok := expected_error
                                   (prepend_error_line e
                                      ["In field name '"; f; "',"]) |}));
      [apply (apply_visitor_first_error p q m v L e)|
       destruct (apply_visitor v (p ++ m :: q) L) as [[L' vis'] vs]]
  end.
  - apply Forall_map, Forall_forall. intros m _ L0 i0. apply from_stack_neutral.
  - intros L0 i0. apply from_stack_neutral.
  - reflexivity.
  - apply Forall_map. eapply Forall_impl; [exact Hpre|]. intros m Hm. exact Hm.
  - exact He.
  - simpl in H. injection H as -> ->. reflexivity.
Qed.

Lemma prepend_error_line_what (e : error) (name : string) :
  what (prepend_error_line e ["In field name '"; name; "',"])
  = context_line name +:+ newline +:+ what e.
Proof. reflexivity. Qed.

(** ** The capacity check *)

Lemma lua_checkstack_fails (L L' : lua_State) (n : Z) :
  lua_checkstack L n = (L', false) -> L' = L.
Proof.
  unfold lua_checkstack.
  destruct (_ <=? slots L)%nat; [discriminate|].
  destruct (_ <=? max_slots L)%nat; [discriminate|].
  intros [= <-]. reflexivity.
Qed.

Lemma check_stack_push_n_fails (L : lua_State) (n : Z) :
  is_value (snd (check_stack_push_n L n)) = false ->
  check_stack_push_n L n = (L, expected_error insufficient_stack_space).
Proof.
  unfold check_stack_push_n.
  destruct (lua_checkstack L n) as [L' [|]] eqn:E; [discriminate|].
  apply lua_checkstack_fails in E as ->. reflexivity.
Qed.

Lemma check_stack_push_each_fails (reserve : Z) (Args : list push_trait)
      (L : lua_State) :
  is_value (snd (check_stack_push_each reserve Args L)) = false ->
  check_stack_push_each reserve Args L
  = (L, expected_error insufficient_stack_space).
Proof.
  unfold check_stack_push_each.
  destruct (lua_checkstack L _) as [L' [|]] eqn:E; [discriminate|].
  apply lua_checkstack_fails in E as ->. reflexivity.
Qed.

(** ** The model at work *)

(** A coroutine that yields once and then returns: the first resume gives
    the yielded value and leaves the context suspended, the second gives the
    returned value. *)
Example resume_yield_then_return :
  match resume_one_ret 0 (sample_env [VFun 1] 40) with
  | Ok r1 L1 =>
      r1 = expected_value (ref 0 0)
      /\ status L1 = LUA_YIELD
      /\ lua_rawgeti_registry L1 0 = VInt 7
      /\ match resume_one_ret 0 L1 with
         | Ok r2 L2 =>
             r2 = expected_value (ref 0 1)
             /\ status L2 = LUA_OK
             /\ lua_rawgeti_registry L2 1 = VInt 8
         | _ => False
         end
  | _ => False
  end.
Proof. vm_compute. repeat split. Qed.

(** A token for function 1, called with three arguments for all its results:
    both results come back as references, the callable was invoked once, and
    the environment's stack is as it was. *)
Example bound_function_call_all :
  let held := set_registry (sample_env [VInt 5] 40) [VFun 1] 8 in
  let three := [ {| arg_trait := push_int; arg_value := VInt 10 |};
                 {| arg_trait := push_int; arg_value := VInt 20 |};
                 {| arg_trait := push_int; arg_value := VInt 30 |} ] in
  let out := call 20 {| ref_ := ref 0 0 |} three {[ 0 := held ]} in
  snd out = expected_value [ref 0 2; ref 0 1]
  /\ (stack <$> fst out !! 0) = Some [VInt 5]
  /\ (calls <$> fst out !! 0) = Some [(VFun 1, [VInt 10; VInt 20; VInt 30])].
Proof. vm_compute. repeat split. Qed.

(** * The claims *)

(** ** The stack-budget estimator *)

(** C2. For every ordered list of argument types, the estimator's margin is
    the maximum, over every position [i], of the cost the [i]-th type's push
    trait declares plus [i], bounded below by 0; it is the unknown margin
    exactly when some type's declared cost is unknown.  (The costs, positions
    and sums are taken to fit in an [int].) *)
Theorem estimator_running_maximum (Args : list push_trait) :
  representable Args ->
  let m := stack_push_each_helper Args in
  (MaybeInt.unknown m = true
   <-> exists (i : nat) (T : push_trait),
       Args !! i = Some T /\ MaybeInt.unknown (stack_space_needed T) = true)
  /\ (MaybeInt.unknown m = true -> m = MaybeInt.mk_unknown)
  /\ (MaybeInt.unknown m = false ->
      (0 <= MaybeInt.value m)%Z
      /\ (forall (i : nat) (T : push_trait),
            Args !! i = Some T ->
            (MaybeInt.value (stack_space_needed T) + Z.of_nat i
             <= MaybeInt.value m)%Z)
      /\ (MaybeInt.value m = 0%Z
          \/ exists (i : nat) (T : push_trait),
              Args !! i = Some T
              /\ MaybeInt.value m
                 = (MaybeInt.value (stack_space_needed T) + Z.of_nat i)%Z)).
Proof.
  intros Hrep m. split; [apply (impl_unknown 0 Args)|].
  apply (impl_spec 0 Args Hrep).
Qed.

Lemma sample_args_representable :
  representable [push_int; push_visitable; push_int].
Proof.
  intros i T Hi _.
  destruct i as [|[|[|i]]]; simpl in Hi; try discriminate;
    injection Hi as <-; unfold in_int, INT_MIN, INT_MAX; simpl; lia.
Qed.

Lemma estimator_running_maximum_witness :
  representable [push_int; push_visitable; push_int]
  /\ (MaybeInt.value (stack_space_needed push_visitable) + 1
      <= MaybeInt.value
           (stack_push_each_helper [push_int; push_visitable; push_int]))%Z.
Proof.
  split; [exact sample_args_representable|].
  exact (proj1 (proj2 (proj2 (proj2 (estimator_running_maximum
                                       [push_int; push_visitable; push_int]
                                       sample_args_representable))
                             eq_refl))
               1 push_visitable eq_refl).
Defined.

(** C7, as the specification states it, fails: a type whose push trait
    declares no cost does not count for one slot; the margin of such a type
    alone is unknown, where a declared cost of 1 gives the margin 1. *)
Lemma undeclared_cost_counterexample :
  stack_push_each_helper [push_undeclared] = MaybeInt.mk_unknown
  /\ stack_push_each_helper [push_int] = MaybeInt.mk 1
  /\ stack_push_each_helper [push_undeclared]
     <> stack_push_each_helper [push_int].
Proof. repeat split. discriminate. Qed.

(** C7, amended.  A type whose push trait declares no stack cost has the
    unknown cost, and makes the whole margin unknown. *)
Theorem undeclared_cost_unknown (Args : list push_trait) (i : nat)
        (T : push_trait) :
  Args !! i = Some T ->
  push_stack_space_needed T = None ->
  stack_space_needed T = MaybeInt.mk_unknown
  /\ stack_push_each_helper Args = MaybeInt.mk_unknown.
Proof.
  intros Hi HT.
  assert (Hu : stack_space_needed T = MaybeInt.mk_unknown)
    by (unfold stack_space_needed; rewrite HT; reflexivity).
  split; [exact Hu|].
  apply max_unknown_eq; [reflexivity|].
  apply (impl_unknown 0 Args). exists i, T. rewrite Hu. auto.
Qed.

Lemma undeclared_cost_unknown_witness :
  stack_push_each_helper [push_int; push_undeclared] = MaybeInt.mk_unknown.
Proof.
  exact (proj2 (undeclared_cost_unknown [push_int; push_undeclared] 1
                  push_undeclared eq_refl eq_refl)).
Defined.

(** C8. Prepending an argument never decreases the estimated margin, the
    unknown margin being above every known one; and the margin is unknown as
    soon as one argument's declared cost is.  (The costs, positions and sums
    of the longer list are taken to fit in an [int].) *)
Theorem margin_monotone (T : push_trait) (Args : list push_trait) :
  representable (T :: Args) ->
  let old := stack_push_each_helper Args in
  let new := stack_push_each_helper (T :: Args) in
  (MaybeInt.unknown old = true -> MaybeInt.unknown new = true)
  /\ (MaybeInt.unknown new = false ->
      MaybeInt.unknown old = false
      /\ (MaybeInt.value old <= MaybeInt.value new)%Z)
  /\ ((exists (i : nat) (a : push_trait),
          Args !! i = Some a
          /\ MaybeInt.unknown (stack_space_needed a) = true) ->
      old = MaybeInt.mk_unknown).
Proof.
  intros Hrep old new.
  assert (Hrep' : representable Args).
  { intros i a Hi Ha. destruct (Hrep (S i) a Hi Ha) as (H1 & H2 & H3).
    unfold in_int, INT_MIN, INT_MAX in *. simpl Nat.add in *.
    repeat split; lia. }
  assert (Hup : MaybeInt.unknown old = true -> MaybeInt.unknown new = true).
  { intros Ho. apply (impl_unknown 0 Args) in Ho as (i & a & Hi & Ha).
    apply (impl_unknown 0 (T :: Args)). exists (S i), a. auto. }
  split; [exact Hup|]. split.
  - intros Hn.
    assert (Ho : MaybeInt.unknown old = false).
    { destruct (MaybeInt.unknown old); [|reflexivity].
      specialize (Hup eq_refl). congruence. }
    split; [exact Ho|].
    destruct (impl_spec 0 Args Hrep') as [_ Hold].
    destruct (impl_spec 0 (T :: Args) Hrep) as [_ Hnew].
    destruct (Hold Ho) as (_ & _ & Hmax).
    destruct (Hnew Hn) as (H0 & Hle & _).
    subst old new. unfold stack_push_each_helper, Count_t in *.
    destruct Hmax as [Hz | (i & a & Hi & Hz)]; [lia|].
    specialize (Hle (S i) a Hi). simpl Nat.add in *. lia.
  - intros Hex. apply max_unknown_eq; [reflexivity|].
    apply (impl_unknown 0 Args), Hex.
Qed.

Lemma margin_monotone_witness :
  representable [push_int; push_visitable; push_int]
  /\ (MaybeInt.value (stack_push_each_helper [push_visitable; push_int])
      <= MaybeInt.value
           (stack_push_each_helper [push_int; push_visitable; push_int]))%Z.
Proof.
  split; [exact sample_args_representable|].
  exact (proj2 (proj1 (proj2 (margin_monotone push_int
                                [push_visitable; push_int]
                                sample_args_representable))
                      eq_refl)).
Defined.

(** ** The protected invocation protocol *)

(** C1, as the specification states it, fails.  The callable of the sample
    environment takes three arguments and returns two values; asked for one,
    the call retains one value, yet the stack is as deep afterwards as it was
    before the callable and its arguments were pushed, not one slot deeper.
    The same holds when the call goes through a token: the environment's
    stack is as it was, while the result retains one value. *)
Lemma stack_neutrality_counterexample :
  match fcn_call_one_ret 3
          (sample_env [VFun 1; VInt 10; VInt 20; VInt 30] 40) with
  | Ok r L' =>
      r = expected_value (ref 0 0)
      /\ lua_rawgeti_registry L' 0 = VInt 1
      /\ retained (T := ret_lua_ref) r = 1
      /\ stack L' = []
      /\ length (stack L') <> 0 + 1
  | _ => False
  end
  /\ let held := set_registry (sample_env [VInt 5] 40) [VFun 1] 8 in
     let three := [ {| arg_trait := push_int; arg_value := VInt 10 |};
                    {| arg_trait := push_int; arg_value := VInt 20 |};
                    {| arg_trait := push_int; arg_value := VInt 30 |} ] in
     let out := call_one_ret 20 {| ref_ := ref 0 0 |} three {[ 0 := held ]} in
     snd out = expected_value (ref 0 1)
     /\ retained (T := ret_lua_ref) (snd out) = 1
     /\ (stack <$> fst out !! 0) = Some [VInt 5]
     /\ (length <$> (stack <$> fst out !! 0)) <> Some (1 + 1).
Proof.
  vm_compute. repeat split; intros H; discriminate H.
Qed.

(** C1, amended.  With the callable [f] and its arguments [args] on top of
    [below], a call of any return shape that the VM completes (with memory
    for the references to its results) or fails returns with the stack back
    at [below], whatever number of values the result retains: these are held
    by references, not by stack slots.  A resume of any return shape that
    returns, be it with values, with the VM's error or with a host allocation
    failure while draining, leaves the stack as deep as [below]; and it does
    return when the VM has memory for the references. *)
Theorem call_restores_stack (T : return_kind) (L : lua_State)
        (below args : list lua_value) (f : lua_value) :
  stack L = below ++ f :: args ->
  let narg := Z.of_nat (length args) in
  match call_value L f args with
  | vm_error k e =>
      exists (L' : lua_State),
        fcn_call T narg L
        = Ok (expected_error
                {| what := error_text (err_code k) (intercepted L k e) |}) L'
        /\ stack L' = below
        /\ stack_discipline L' (Z.of_nat (length below) + 1)
  | vm_return rs =>
      let n := length (adjust_results (nrets T) rs) in
      n <= vm_mem L -> n <= host_mem L ->
      exists (r : return_type T) (L' : lua_State),
        fcn_call T narg L = Ok (expected_value r) L'
        /\ stack L' = below
        /\ stack_discipline L' (Z.of_nat (length below) + 1)
        /\ retained (expected_value r) = n
  end
  /\ (forall (r : expected (return_type T)) (L' : lua_State),
         resume_call T narg L = Ok r L' ->
         length (stack L') = length below)
  /\ (forall (L1 : lua_State) (code : Z),
         lua_resume L narg = (L1, code) ->
         ((code =? LUA_OK)%Z || (code =? LUA_YIELD)%Z = true ->
          (lua_gettop L1 <= Z.of_nat (vm_mem L))%Z) ->
         exists (r : expected (return_type T)) (L' : lua_State),
           resume_call T narg L = Ok r L').
Proof.
  intros Hs narg. split; [|split].
  - destruct (call_value L f args) as [rs|k e] eqn:Hc.
    + intros n Hv Hh.
      destruct (fcn_call_success T L below args rs f Hs Hc Hv Hh)
        as (r & L' & Hr & Hs' & Hret).
      exists r, L'. repeat split; auto.
      unfold stack_discipline, lua_gettop. rewrite Hs'. lia.
    + eexists. split; [apply (fcn_call_error T L below args f k e Hs Hc)|].
      split; [reflexivity|].
      unfold stack_discipline, lua_gettop. simpl. lia.
  - intros r L' Hr.
    apply resume_call_depth in Hr.
    + unfold lua_gettop in Hr. rewrite Hs, length_app in Hr. simpl in Hr.
      subst narg. lia.
    + unfold lua_gettop. rewrite Hs, length_app. simpl. subst narg. lia.
  - intros L1 code Hr Hm. eapply resume_call_returns; eauto.
    unfold lua_gettop. rewrite Hs, length_app. simpl. subst narg. lia.
Qed.

Lemma call_restores_stack_witness :
  exists (r : lua_ref_seq) (L' : lua_State),
    fcn_call ret_lua_ref_seq 1 (sample_env [VNil; VFun 1; VInt 10] 40)
    = Ok (expected_value r) L'
    /\ stack L' = [VNil]
    /\ stack_discipline L' 2
    /\ retained (T := ret_lua_ref_seq) (expected_value r) = 2.
Proof.
  apply (proj1 (call_restores_stack ret_lua_ref_seq
                  (sample_env [VNil; VFun 1; VInt 10] 40)
                  [VNil] [VInt 10] (VFun 1) eq_refl));
    simpl; lia.
Defined.

(** Where there is a slot under the arguments, as for a coroutine that has
    not started: when the VM's resumption primitive reports an error, the
    traceback interceptor is called on the error value, the error record is
    made from what it answers, and the stack is then set to the depth
    beneath that slot, the baseline of the call.  (The slot under the
    arguments is where [resume_helper] expects the function.) *)
Theorem resume_error_intercepted (T : return_kind) (L L1 : lua_State)
        (narg code : Z) :
  (0 <= narg < lua_gettop L)%Z ->
  lua_resume L narg = (L1, code) ->
  code <> LUA_OK ->
  code <> LUA_YIELD ->
  let e := index2value L1 (-1) in
  exists (L2 : lua_State),
    resume_call T narg L
    = Ok (expected_error {| what := error_text code (traceback L e) |}) L2
    /\ calls L2 = calls L1 ++ [(VTraceback, [e])]
    /\ lua_gettop L2 = (lua_gettop L - narg - 1)%Z.
Proof.
  intros Hn Hr Hok Hy e.
  destruct (lua_resume_facts _ _ _ _ Hr) as (_ & _ & [Hc|[Hc (res & v & Hs)]]).
  - apply orb_true_iff in Hc as [Hc|Hc]; apply Z.eqb_eq in Hc; contradiction.
  - assert (He : e = v) by (apply (index2value_top L1 res v Hs)).
    rewrite He.
    eexists. split; [apply (resume_call_error T L L1 narg code res v Hr Hc Hs)|].
    split.
    + unfold lua_settop.
      destruct (0 <=? lua_absindex L (-1 - narg) - 1)%Z; reflexivity.
    + rewrite lua_settop_length; rewrite lua_absindex_neg; lia.
Qed.

Lemma resume_error_intercepted_witness :
  exists (L2 : lua_State),
    resume_one_ret 1 (sample_env [VNil; VFun 3; VInt 10] 40)
    = Ok (expected_error {| what := "bad (traceback)" |}) L2
    /\ lua_gettop L2 = 1%Z.
Proof.
  destruct (resume_error_intercepted ret_lua_ref
              (sample_env [VNil; VFun 3; VInt 10] 40)
              (fst (lua_resume (sample_env [VNil; VFun 3; VInt 10] 40) 1))
              1 LUA_ERRRUN)
    as (L2 & Hr & _ & Hd).
  - unfold lua_gettop. simpl. lia.
  - reflexivity.
  - discriminate.
  - discriminate.
  - exists L2. split; [exact Hr|exact Hd].
Defined.

(** C5. A coroutine that has started holds its arguments and no function
    beneath them, which the assertion of [resume_helper] allows.  Resuming
    such a coroutine with one argument, when its continuation fails leaving
    two values behind: the error has been through the traceback interceptor,
    but [result_index] is 0, [lua_settop(L, -1)] changes nothing, and the
    stack is left two deep, not at the depth 0 it had beneath the
    argument.  The three entry points share this path. *)
Theorem resume_started_error_not_restored :
  let L := set_status (sample_env [VInt 10] 40) LUA_YIELD 3 in
  lua_gettop L = 1%Z
  /\ match resume_helper 1 L with
     | Ok (_, result_index) _ => result_index = 0%Z
     | _ => False
     end
  /\ match resume_no_ret 1 L with
     | Ok r L2 =>
         r = expected_error {| what := "bad (traceback)" |}
         /\ calls L2 = [(VFun 3, [VInt 10]); (VTraceback, [VStr "bad"])]
         /\ stack L2 = [VNil; VNil]
         /\ lua_gettop L2 <> (lua_gettop L - 1)%Z
     | _ => False
     end
  /\ match resume_one_ret 1 L, resume 1 L with
     | Ok r1 L1, Ok r2 L2 =>
         is_value r1 = false /\ is_value r2 = false
         /\ stack L1 = [VNil; VNil] /\ stack L2 = [VNil; VNil]
     | _, _ => False
     end.
Proof. vm_compute. repeat split; discriminate. Qed.

(** ** The capability token *)

(** C3. When the capacity check before a call fails, the call returns the
    "insufficient stack space" error and leaves every environment as it was:
    nothing is pushed and nothing is invoked.  This holds for typed arguments
    and for a sequence of references. *)
Theorem insufficient_stack_short_circuits (reserve : Z) (T : return_kind)
        (self : bound_function) (args : list host_arg) (inputs : lua_ref_seq)
        (w : gmap nat lua_State) (e : nat) (k : Z) (L : lua_State) :
  ref_ self = ref e k ->
  w !! e = Some L ->
  (is_value (snd (check_stack_push_each reserve
                    (push_int :: map arg_trait args) L)) = false ->
   protected_call reserve T self args w
   = (w, expected_error insufficient_stack_space))
  /\ (is_value (snd (check_stack_push_n L (1 + Z.of_nat (length inputs))))
      = false ->
      protected_call2 T self inputs w
      = (w, expected_error insufficient_stack_space)).
Proof.
  intros Hself Hw. split; intros Hc.
  - unfold protected_call. rewrite Hself. simpl. rewrite Hw.
    rewrite (check_stack_push_each_fails _ _ _ Hc).
    rewrite insert_id by exact Hw. reflexivity.
  - unfold protected_call2. rewrite Hself. simpl. rewrite Hw.
    rewrite (check_stack_push_n_fails _ _ Hc).
    rewrite insert_id by exact Hw. reflexivity.
Qed.

Lemma insufficient_stack_short_circuits_witness :
  let L := sample_env [VInt 1; VInt 2] 2 in
  let w : gmap nat lua_State := {[ 0 := L ]} in
  call_no_ret 20 {| ref_ := ref 0 0 |} [] w
  = (w, expected_error insufficient_stack_space).
Proof.
  intros L w.
  apply (proj1 (insufficient_stack_short_circuits 20 ret_void
                  {| ref_ := ref 0 0 |} [] [] w 0 0 L eq_refl
                  (lookup_singleton_eq 0 L))).
  reflexivity.
Defined.

(** C4. Once the owning environment is destroyed, every call method of a
    token (each return shape, typed arguments or a sequence of references)
    returns the error "Can't lock VM" and changes no environment; pushing the
    token reports failure, and locking it gives none. *)
Theorem destroyed_environment_invalidates (reserve : Z) (T : return_kind)
        (e : nat) (k : Z) (w : gmap nat lua_State) (args : list host_arg)
        (inputs : lua_ref_seq) (target : nat) :
  let self := {| ref_ := ref e k |} in
  let w' := lua_close e w in
  protected_call reserve T self args w'
  = (w', expected_error {| what := "Can't lock VM" |})
  /\ protected_call2 T self inputs w'
     = (w', expected_error {| what := "Can't lock VM" |})
  /\ push self target w' = (w', false)
  /\ lua_ref_lock (ref_ self) w' = None.
Proof.
  intros self w'.
  assert (Hl : lua_ref_lock (ref e k) w' = None)
    by apply lookup_delete_eq.
  unfold protected_call, protected_call2, push, lua_ref_push_to.
  subst self. cbn [ref_]. rewrite Hl. repeat split.
Qed.

(** C6. Constructing a token from a non-empty stack removes the top value
    whether or not it is a function: a function is captured by the new token
    (when the VM has the memory to keep the reference), anything else is
    popped and the token is empty. *)
Theorem capture_pops_top (L : lua_State) (below : list lua_value)
        (v : lua_value) :
  stack L = below ++ [v] ->
  (lua_isfunction L (-1) = true -> vm_mem L <> 0) ->
  exists (bf : bound_function) (L' : lua_State),
    bound_function_of_stack L = Ok bf L'
    /\ stack L' = below
    /\ if lua_isfunction L (-1)
       then exists (k : Z),
           ref_ bf = ref (env_id L) k /\ lua_rawgeti_registry L' k = v
       else ref_ bf = empty_ref.
Proof.
  intros Hs Hm. unfold bound_function_of_stack, bind, observe.
  assert (Ht : (lua_gettop L =? 0)%Z = false).
  { apply Z.eqb_neq. unfold lua_gettop. rewrite Hs, length_app. simpl. lia. }
  rewrite Ht. change (negb false) with true. cbv beta iota.
  destruct (lua_isfunction L (-1)) eqn:Hf.
  - destruct (lua_ref_ctor_top L below v Hs) as (k & L' & Hr & Hs' & Hv & _).
    { right. auto. }
    rewrite Hr. unfold ret. eexists _, L'. repeat split; eauto.
  - unfold effect, lua_ref_ctor, ret.
    rewrite (lua_pop_top L below v Hs).
    eexists _, _. repeat split.
Qed.

Lemma capture_pops_top_witness :
  exists (bf : bound_function) (L' : lua_State),
    bound_function_of_stack (sample_env [VInt 5; VFun 1] 40) = Ok bf L'
    /\ stack L' = [VInt 5].
Proof.
  destruct (capture_pops_top (sample_env [VInt 5; VFun 1] 40) [VInt 5] (VFun 1))
    as (bf & L' & Hr & Hs & _).
  - reflexivity.
  - simpl. discriminate.
  - exists bf, L'. split; [exact Hr|exact Hs].
Defined.

(** C10. Constructing a token from an empty stack gives the empty token and
    pops nothing: the environment is left as it was. *)
Theorem capture_on_empty_stack (L : lua_State) :
  stack L = [] ->
  bound_function_of_stack L = Ok {| ref_ := empty_ref |} L.
Proof.
  intros Hs. unfold bound_function_of_stack, bind, observe, lua_gettop.
  rewrite Hs. reflexivity.
Qed.

Lemma capture_on_empty_stack_witness :
  bound_function_of_stack (sample_env [] 40)
  = Ok {| ref_ := empty_ref |} (sample_env [] 40).
Proof. exact (capture_on_empty_stack (sample_env [] 40) eq_refl). Defined.

(** ** Error context *)

(** C9. When a conversion fails two levels deep, in the member [f2] of a
    structure that is itself the member [f1] of the structure read, the
    error's message is the context line of [f1], then the context line of
    [f2], then the original message, each on a line of its own. *)
Theorem nested_error_context
        (pre1 post1 pre2 post2 : list (string * cpp_type))
        (f1 f2 : string) (U : cpp_type) (L : lua_State) (idx : Z) (e : error) :
  let inner := visitable (pre2 ++ (f2, U) :: post2) in
  let outer := visitable (pre1 ++ (f1, inner) :: post1) in
  let L1 := lua_getfield L (lua_absindex L idx) f1 in
  lua_istable L (lua_absindex L idx) = true ->
  Forall (reads_well L (lua_absindex L idx)) pre1 ->
  lua_istable L1 (lua_absindex L1 (-1)) = true ->
  Forall (reads_well L1 (lua_absindex L1 (-1))) pre2 ->
  snd (from_stack U (lua_getfield L1 (lua_absindex L1 (-1)) f2) (-1)%Z)
  = expected_error e ->
  from_stack outer L idx
  = (L, expected_error
          {| what := context_line f1 +:+ newline +:+
                     context_line f2 +:+ newline +:+ what e |}).
Proof.
  intros inner outer L1 Ht Hpre1 Ht1 Hpre2 He.
  assert (Hin : snd (from_stack inner L1 (-1)%Z)
                = expected_error
                    (prepend_error_line e ["In field name '"; f2; "',"])).
  { unfold inner.
    rewrite (from_stack_member_error pre2 post2 f2 U L1 (-1) e); auto. }
  unfold outer.
  rewrite (from_stack_member_error pre1 post1 f1 inner L idx _ Ht Hpre1 Hin).
  reflexivity.
Qed.

Lemma nested_error_context_witness :
  let L := sample_env
             [VTable [("pos", VTable [("x", VInt 1); ("y", VStr "two")])]] 40 in
  let point := visitable [("x", int_type); ("y", int_type)] in
  from_stack (visitable [("pos", point)]) L 1
  = (L, expected_error
          {| what := context_line "pos" +:+ newline +:+
                     context_line "y" +:+ newline +:+
                     "Expected integer, found string" |}).
Proof.
  intros L point.
  apply (nested_error_context [] [] [("x", int_type)] [] "pos" "y" int_type
           L 1 (unexpected_value "integer" "string")).
  - reflexivity.
  - constructor.
  - reflexivity.
  - repeat constructor.
  - reflexivity.
Defined.

(** * Further properties *)

(** ** maybe_int *)

Lemma min_int_spec (a b : Z) : MaybeInt.min_int a b = Z.min a b.
Proof. unfold MaybeInt.min_int. destruct (Z.ltb_spec a b); lia. Qed.

(** X1. [maybe_int::min] over its arguments is unknown exactly when one of them
    is; otherwise it is the least of them. *)
Theorem min_is_least (a : MaybeInt.operand) (xs : list MaybeInt.operand) :
  (MaybeInt.unknown (MaybeInt.min a xs) = true
   <-> Exists (fun x => MaybeInt.unknown (MaybeInt.to_maybe_int x) = true)
              (a :: xs))
  /\ (MaybeInt.unknown (MaybeInt.min a xs) = false ->
      Forall (fun x => (MaybeInt.value (MaybeInt.min a xs)
                        <= MaybeInt.value (MaybeInt.to_maybe_int x))%Z)
             (a :: xs)
      /\ Exists (fun x => MaybeInt.value (MaybeInt.min a xs)
                          = MaybeInt.value (MaybeInt.to_maybe_int x))
                (a :: xs)).
Proof.
  unfold MaybeInt.min, MaybeInt.lift. revert a.
  induction xs as [|b xs IH]; intros a; simpl.
  - split.
    + rewrite Exists_cons, Exists_nil. tauto.
    + intros _. split; [repeat constructor; lia|constructor; reflexivity].
  - destruct (IH b) as [IHu IHk]. split.
    + rewrite lifted_unknown, orb_true_iff, IHu, (Exists_cons _ a). tauto.
    + rewrite lifted_unknown, orb_false_iff. intros [Ha Hr].
      destruct (IHk Hr) as [Hle Hex].
      rewrite (lifted_known _ _ _ Ha Hr). simpl. rewrite min_int_spec.
      split.
      * constructor; [lia|].
        eapply Forall_impl; [exact Hle|]. simpl. intros; lia.
      * destruct (Z.min_spec (MaybeInt.value (MaybeInt.to_maybe_int a))
                    (MaybeInt.value
                       (MaybeInt.right_associate
                          (MaybeInt.lifted MaybeInt.min_int) b xs)))
          as [[_ ->]|[_ ->]].
        -- apply Exists_cons_hd. reflexivity.
        -- apply Exists_cons_tl. exact Hex.
Qed.

(** X2. Every [maybe_int] the class hands out is either known or exactly
    [maybe_int{}]: the constructors, every lifted operation whatever its
    operands, the unary minus, and the folds over canonical arguments. *)
Theorem results_are_canonical :
  canonical MaybeInt.mk_unknown
  /\ (forall v, canonical (MaybeInt.mk v))
  /\ (forall f a b, canonical (MaybeInt.lifted f a b))
  /\ (forall m, canonical (MaybeInt.neg m))
  /\ (forall f a xs,
         Forall (fun x => canonical (MaybeInt.to_maybe_int x)) (a :: xs) ->
         canonical (MaybeInt.right_associate (MaybeInt.lift f) a xs)).
Proof.
  repeat split.
  - intros v H. discriminate H.
  - intros f a b. exact (lifted_unknown_eq f a b).
  - intros m. unfold canonical, MaybeInt.neg.
    destruct (MaybeInt.unknown m); [reflexivity|discriminate].
  - intros f a xs H. apply Forall_cons in H as [Ha Hxs].
    destruct xs as [|b xs]; simpl; [exact Ha|].
    exact (lifted_unknown_eq f _ _).
Qed.

(** X3. Adding an [int] and subtracting it again gives back the operand, when the
    sum fits in an [int]. *)
Theorem plus_minus_round_trip (m : MaybeInt.maybe_int) (i : Z) :
  canonical m ->
  (MaybeInt.unknown m = false ->
   in_int (MaybeInt.value m) /\ in_int (MaybeInt.value m + i)) ->
  MaybeInt.minus_int (MaybeInt.plus_int m i) i = m.
Proof.
  intros Hc Hr. destruct m as [v [|]].
  - rewrite (Hc eq_refl). reflexivity.
  - destruct (Hr eq_refl) as [Hv Hs]. simpl in *.
    unfold MaybeInt.minus_int, MaybeInt.plus_int, MaybeInt.lift,
      MaybeInt.lifted. simpl.
    unfold MaybeInt.mk, MaybeInt.sub_int, MaybeInt.add_int. f_equal.
    rewrite (to_int_id (v + i)) by exact Hs.
    replace (v + i - i)%Z with v by lia. apply to_int_id, Hv.
Qed.

Lemma plus_minus_round_trip_witness :
  MaybeInt.minus_int (MaybeInt.plus_int (MaybeInt.mk 2) 3) 3 = MaybeInt.mk 2.
Proof.
  apply (plus_minus_round_trip (MaybeInt.mk 2) 3).
  - intros H. discriminate H.
  - intros _. unfold in_int, INT_MIN, INT_MAX. simpl. lia.
Defined.

(** X4. Subtracting is adding the opposite, when the opposite and the difference
    fit in an [int]. *)
Theorem minus_is_plus_neg (a b : MaybeInt.maybe_int) :
  (MaybeInt.unknown b = false -> in_int (- MaybeInt.value b)) ->
  MaybeInt.minus a b = MaybeInt.plus a (MaybeInt.neg b).
Proof.
  intros Hb. unfold MaybeInt.minus, MaybeInt.plus, MaybeInt.lift,
    MaybeInt.lifted, MaybeInt.neg, MaybeInt.to_bool, MaybeInt.deref.
  destruct (MaybeInt.unknown a), (MaybeInt.unknown b) eqn:Eb; simpl;
    try reflexivity.
  unfold MaybeInt.sub_int, MaybeInt.add_int.
  rewrite (to_int_id (- MaybeInt.value b)) by auto.
  rewrite Z.add_opp_r. reflexivity.
Qed.

Lemma minus_is_plus_neg_witness :
  MaybeInt.minus (MaybeInt.mk 7) (MaybeInt.mk 5)
  = MaybeInt.plus (MaybeInt.mk 7) (MaybeInt.neg (MaybeInt.mk 5)).
Proof.
  apply (minus_is_plus_neg (MaybeInt.mk 7) (MaybeInt.mk 5)).
  intros _. unfold in_int, INT_MIN, INT_MAX. simpl. lia.
Defined.

(** X5. The free operators forward to the member with the operands swapped:
    harmless for [+] and [*], but [int - maybe_int] comes out as the opposite
    of the difference written. *)
Theorem free_minus_is_reversed (a : Z) (b : MaybeInt.maybe_int) :
  (MaybeInt.unknown b = false -> in_int (a - MaybeInt.value b)) ->
  MaybeInt.int_plus a b = MaybeInt.plus (MaybeInt.mk a) b
  /\ MaybeInt.int_times a b = MaybeInt.times (MaybeInt.mk a) b
  /\ MaybeInt.int_minus a b
     = MaybeInt.neg (MaybeInt.minus (MaybeInt.mk a) b).
Proof.
  intros Hb.
  unfold MaybeInt.int_plus, MaybeInt.int_times, MaybeInt.int_minus,
    MaybeInt.plus_int, MaybeInt.times_int, MaybeInt.minus_int,
    MaybeInt.plus, MaybeInt.times, MaybeInt.minus, MaybeInt.lift,
    MaybeInt.lifted, MaybeInt.neg, MaybeInt.to_bool, MaybeInt.deref.
  destruct (MaybeInt.unknown b) eqn:Eb; simpl; [repeat split|].
  unfold MaybeInt.add_int, MaybeInt.mult_int, MaybeInt.sub_int.
  rewrite (Z.add_comm (MaybeInt.value b) a), (Z.mul_comm (MaybeInt.value b) a).
  repeat split.
  rewrite (to_int_id (a - MaybeInt.value b)) by auto.
  rewrite Z.opp_sub_distr, Z.add_comm, Z.add_opp_r. reflexivity.
Qed.

Lemma free_minus_is_reversed_witness :
  MaybeInt.int_minus 5 (MaybeInt.mk 2) = MaybeInt.mk (-3).
Proof.
  apply (free_minus_is_reversed 5 (MaybeInt.mk 2)).
  intros _. unfold in_int, INT_MIN, INT_MAX. simpl. lia.
Defined.

(** ** The stack-budget estimator *)

(** X6. When every argument's declared cost is known and lies between [lo] and
    [hi], the margin of a non-empty list lies between [lo + n - 1] and
    [hi + n - 1], and is never negative: [n] arguments of one slot each get
    the margin [n]. *)
Theorem margin_bounds (Args : list push_trait) (lo hi : Z) :
  representable Args ->
  Args <> [] ->
  (forall (i : nat) (T : push_trait),
      Args !! i = Some T ->
      MaybeInt.unknown (stack_space_needed T) = false
      /\ (lo <= MaybeInt.value (stack_space_needed T) <= hi)%Z) ->
  let m := stack_push_each_helper Args in
  let n := Z.of_nat (length Args) in
  MaybeInt.unknown m = false
  /\ (Z.max 0 (lo + n - 1) <= MaybeInt.value m <= Z.max 0 (hi + n - 1))%Z.
Proof.
  intros Hrep Hne Hc m n.
  assert (Hk : MaybeInt.unknown m = false).
  { destruct (MaybeInt.unknown m) eqn:E; [|reflexivity].
    apply (impl_unknown 0 Args) in E as (i & T & Hi & Hu).
    destruct (Hc i T Hi) as [Hk _]. congruence. }
  split; [exact Hk|].
  destruct (impl_spec 0 Args Hrep) as [_ Hs].
  destruct (Hs Hk) as (H0 & Hle & Hex).
  subst m. unfold stack_push_each_helper, Count_t in *.
  split.
  - destruct (exists_last Hne) as (front & T & HA).
    assert (Hi : Args !! (length front) = Some T)
      by (rewrite HA; apply list_lookup_middle; reflexivity).
    specialize (Hle _ _ Hi). destruct (Hc _ _ Hi) as [_ Hb].
    assert (n = Z.of_nat (length front) + 1)%Z
      by (subst n; rewrite HA, length_app; simpl; lia).
    simpl Nat.add in Hle. lia.
  - destruct Hex as [Hz | (i & T & Hi & Hz)]; [lia|].
    destruct (Hc _ _ Hi) as [_ Hb].
    apply lookup_lt_Some in Hi. simpl Nat.add in Hz. subst n. lia.
Qed.

Lemma margin_bounds_witness :
  MaybeInt.value (stack_push_each_helper [push_int; push_int; push_int]) = 3%Z.
Proof.
  assert (Hrep : representable [push_int; push_int; push_int]).
  { intros i T Hi _.
    destruct i as [|[|[|i]]]; simpl in Hi; try discriminate;
      injection Hi as <-; unfold in_int, INT_MIN, INT_MAX; simpl; lia. }
  assert (Hc : forall (i : nat) (T : push_trait),
             [push_int; push_int; push_int] !! i = Some T ->
             MaybeInt.unknown (stack_space_needed T) = false
             /\ (1 <= MaybeInt.value (stack_space_needed T) <= 1)%Z).
  { intros i T Hi.
    destruct i as [|[|[|i]]]; simpl in Hi; try discriminate;
      injection Hi as <-; simpl; (split; [reflexivity|lia]). }
  pose proof (proj2 (margin_bounds [push_int; push_int; push_int] 1 1
                       Hrep ltac:(discriminate) Hc)) as H.
  simpl length in H. lia.
Defined.

(** X7. Appending an argument never decreases the margin either, the unknown
    margin being above every known one. *)
Theorem margin_monotone_append (Args : list push_trait) (T : push_trait) :
  representable (Args ++ [T]) ->
  let old := stack_push_each_helper Args in
  let new := stack_push_each_helper (Args ++ [T]) in
  (MaybeInt.unknown old = true -> MaybeInt.unknown new = true)
  /\ (MaybeInt.unknown new = false ->
      MaybeInt.unknown old = false
      /\ (MaybeInt.value old <= MaybeInt.value new)%Z).
Proof.
  intros Hrep old new.
  assert (Hrep' : representable Args).
  { intros i a Hi Ha. apply (Hrep i a); [|exact Ha].
    rewrite lookup_app_l by (eapply lookup_lt_Some; eauto). exact Hi. }
  assert (Hup : MaybeInt.unknown old = true -> MaybeInt.unknown new = true).
  { intros Ho. apply (impl_unknown 0 Args) in Ho as (i & a & Hi & Ha).
    apply (impl_unknown 0 (Args ++ [T])). exists i, a. split; [|exact Ha].
    rewrite lookup_app_l by (eapply lookup_lt_Some; eauto). exact Hi. }
  split; [exact Hup|]. intros Hn.
  assert (Ho : MaybeInt.unknown old = false).
  { destruct (MaybeInt.unknown old); [|reflexivity].
    specialize (Hup eq_refl). congruence. }
  split; [exact Ho|].
  destruct (impl_spec 0 Args Hrep') as [_ Hold].
  destruct (impl_spec 0 (Args ++ [T]) Hrep) as [_ Hnew].
  destruct (Hold Ho) as (_ & _ & Hmax).
  destruct (Hnew Hn) as (H0 & Hle & _).
  subst old new. unfold stack_push_each_helper, Count_t in *.
  destruct Hmax as [Hz | (i & a & Hi & Hz)]; [lia|].
  specialize (Hle i a). rewrite lookup_app_l in Hle
    by (eapply lookup_lt_Some; eauto).
  specialize (Hle Hi). lia.
Qed.

Lemma margin_monotone_append_witness :
  (MaybeInt.value (stack_push_each_helper [push_int; push_visitable])
   <= MaybeInt.value
        (stack_push_each_helper [push_int; push_visitable; push_int]))%Z.
Proof.
  exact (proj2 (proj2 (margin_monotone_append [push_int; push_visitable]
                         push_int sample_args_representable)
                      eq_refl)).
Defined.

(** ** primer/support/function.hpp *)

(** X8. [fetch_traceback_function] leaves exactly one more value on the stack,
    the traceback function (as its assertion expects), and changes nothing
    else. *)
Theorem fetch_traceback_function_effect (L : lua_State) :
  fetch_traceback_function L = lua_pushvalue_of L VTraceback
  /\ stack (fetch_traceback_function L) = stack L ++ [VTraceback]
  /\ lua_isfunction (fetch_traceback_function L) (-1) = true.
Proof.
  rewrite fetch_traceback_function_pushes. repeat split.
  unfold lua_isfunction.
  rewrite (index2value_top _ (stack L) VTraceback); reflexivity.
Qed.

(** X9. [pcall_helper], given the function [f] and its arguments on top of
    [below]: the function is invoked once, with these arguments; what is
    beneath is untouched; the handler is gone; the results (as many as asked
    for) or the single error value start at the index returned, which is
    where the function was.  A runtime error has been through the traceback
    handler, any other error has not. *)
Theorem pcall_helper_frame (L : lua_State) (below args : list lua_value)
        (f : lua_value) (nret : Z) :
  stack L = below ++ f :: args ->
  exists (L' : lua_State) (code : Z) (out : list lua_value),
    pcall_helper (Z.of_nat (length args)) nret L
    = (L', (code, Z.of_nat (length below) + 1)%Z)
    /\ stack L' = below ++ out
    /\ calls L' = calls L ++ [(f, args)]
    /\ match call_value L f args with
       | vm_return rs => code = LUA_OK /\ out = adjust_results nret rs
       | vm_error k e =>
           code = err_code k /\ code <> LUA_OK
           /\ out = [match k with ERRRUN => traceback L e | _ => e end]
       end.
Proof.
  intros Hs. rewrite (pcall_helper_at L below args f _ nret Hs eq_refl).
  destruct (call_value L f args) as [rs|k e].
  - eexists _, _, _. repeat split.
  - eexists _, _, _. repeat split. destruct k; discriminate.
Qed.

Lemma pcall_helper_frame_witness :
  exists (L' : lua_State) (code : Z) (out : list lua_value),
    pcall_helper 1 1 (sample_env [VNil; VFun 1; VInt 3] 40)
    = (L', (code, 2%Z))
    /\ stack L' = [VNil] ++ out.
Proof.
  destruct (pcall_helper_frame (sample_env [VNil; VFun 1; VInt 3] 40)
              [VNil] [VInt 3] (VFun 1) 1 eq_refl)
    as (L' & code & out & Hp & Hs & _).
  exists L', code, out. split; [exact Hp|exact Hs].
Defined.

Lemma adjust_results_one (rs : list lua_value) :
  adjust_results 1 rs = [default VNil (head rs)].
Proof. destruct rs; reflexivity. Qed.

(** X11. [fcn_call_one_ret] gives a reference to the first of the callable's
    results, to nil when it returned none, and drops the others; the VM needs
    memory for the reference unless the value is nil. *)
Theorem fcn_call_one_ret_first (L : lua_State) (below args rs : list lua_value)
        (f : lua_value) :
  stack L = below ++ f :: args ->
  call_value L f args = vm_return rs ->
  (default VNil (head rs) = VNil \/ vm_mem L <> 0) ->
  exists (k : Z) (L' : lua_State),
    fcn_call_one_ret (Z.of_nat (length args)) L
    = Ok (expected_value (ref (env_id L) k)) L'
    /\ lua_rawgeti_registry L' k = default VNil (head rs)
    /\ stack L' = below.
Proof.
  intros Hs Hc Hm. unfold fcn_call_one_ret, fcn_call, bind, effect_of.
  rewrite (pcall_helper_at L below args f _ _ Hs eq_refl), Hc.
  change (negb (LUA_OK =? LUA_OK)%Z) with false. cbv iota.
  unfold return_helper_pop, bind. simpl nrets. rewrite adjust_results_one.
  destruct (lua_ref_ctor_top
              (set_stack (log_call L f args)
                         (below ++ [default VNil (head rs)]))
              below (default VNil (head rs)) eq_refl)
    as (k & L' & Hr & Hs' & Hv & _).
  { exact Hm. }
  rewrite Hr. unfold ret. exists k, L'. auto.
Qed.

Lemma fcn_call_one_ret_first_witness :
  exists (k : Z) (L' : lua_State),
    fcn_call_one_ret 1 (sample_env [VNil; VFun 1; VInt 3] 40)
    = Ok (expected_value (ref 0 k)) L'
    /\ lua_rawgeti_registry L' k = VInt 1
    /\ stack L' = [VNil].
Proof.
  apply (fcn_call_one_ret_first (sample_env [VNil; VFun 1; VInt 3] 40)
           [VNil] [VInt 3] [VInt 1; VInt 2] (VFun 1) eq_refl eq_refl).
  right. discriminate.
Defined.

Lemma lasting_grow (L L1 : lua_State) (r : lua_ref) (v : lua_value)
      (ext : list lua_value) :
  registry L1 = registry L ++ ext -> lasting L r v -> lasting L1 r v.
Proof.
  intros He Hl L' ext' He'. apply (Hl L' (ext ++ ext')).
  rewrite He', He, app_assoc. reflexivity.
Qed.

Lemma lua_ref_ctor_lasting (L : lua_State) (below : list lua_value)
      (v : lua_value) :
  stack L = below ++ [v] ->
  v = VNil \/ vm_mem L <> 0 ->
  exists (r : lua_ref) (L' : lua_State) (ext : list lua_value),
    lua_ref_ctor false L = Ok r L'
    /\ stack L' = below
    /\ registry L' = registry L ++ ext
    /\ lasting L' r v
    /\ host_mem L' = host_mem L
    /\ vm_mem L <= S (vm_mem L').
Proof.
  intros Hs Hv. unfold lua_ref_ctor, bind, luaL_ref, observe.
  rewrite (index2value_top L below v Hs), (lua_pop_top L below v Hs).
  assert (Hstore : forall m, vm_mem L = S m ->
            exists (r : lua_ref) (L' : lua_State) (ext : list lua_value),
              Ok (ref (env_id
                         (lua_pop (set_registry L (registry L ++ [v]) m) 1))
                      (Z.of_nat (length (registry L))))
                 (lua_pop (set_registry L (registry L ++ [v]) m) 1)
              = Ok r L'
              /\ stack L' = below
              /\ registry L' = registry L ++ ext
              /\ lasting L' r v
              /\ host_mem L' = host_mem L
              /\ vm_mem L <= S (vm_mem L')).
  { intros m Em.
    rewrite (lua_pop_top _ below v) by (simpl; rewrite Hs; reflexivity).
    eexists _, _, [v]. split; [reflexivity|]. simpl.
    repeat split; try lia.
    intros L' ext He. unfold deref, lua_rawgeti_registry.
    destruct (Z.ltb_spec (Z.of_nat (length (registry L))) 0); [lia|].
    rewrite Nat2Z.id, He. simpl registry. rewrite <- app_assoc. simpl app.
    rewrite list_lookup_middle by reflexivity. reflexivity. }
  destruct v;
    try (destruct (vm_mem L) as [|m] eqn:Em;
         [destruct Hv; congruence|exact (Hstore m eq_refl)]).
  exists (ref (env_id L) LUA_REFNIL), (set_stack L below), [].
  simpl. rewrite app_nil_r. repeat split; try lia.
Qed.

Lemma pop_n_loop_values (n : nat) :
  forall (acc : lua_ref_seq) (L : lua_State) (below vs : list lua_value),
    stack L = below ++ vs ->
    length vs = n ->
    n <= vm_mem L ->
    n <= host_mem L ->
    exists (front : lua_ref_seq) (L' : lua_State) (ext : list lua_value),
      pop_n_loop n acc L = Ok (front ++ acc) L'
      /\ stack L' = below
      /\ registry L' = registry L ++ ext
      /\ Forall2 (lasting L') front vs.
Proof.
  induction n as [|n IH]; intros acc L below vs Hs Hl Hv Hh.
  - destruct vs; [|discriminate]. rewrite app_nil_r in Hs.
    exists [], L, []. rewrite app_nil_r. repeat split; auto.
  - destruct (exists_last (l := vs)) as (vs' & v & ->).
    { intros ->. discriminate. }
    rewrite length_app in Hl. simpl in Hl.
    rewrite pop_n_loop_S.
    destruct (host_mem L) as [|hm] eqn:Eh; [lia|].
    destruct (lua_ref_ctor_lasting (set_host_mem L hm) (below ++ vs') v)
      as (r & L1 & ext1 & -> & Hs1 & He1 & Hl1 & Hh1 & Hv1).
    { simpl. rewrite Hs, app_assoc. reflexivity. }
    { right. simpl. lia. }
    simpl in Hh1, Hv1, He1.
    destruct (IH (r :: acc) L1 below vs')
      as (front & L' & ext & Hr & Hs' & He & Hf); try lia; auto.
    exists (front ++ [r]), L', (ext1 ++ ext).
    rewrite <- app_assoc. simpl. repeat split; auto.
    + rewrite He, He1, app_assoc. reflexivity.
    + apply Forall2_app; [exact Hf|].
      constructor; [|constructor].
      eapply lasting_grow; eauto.
Qed.

Lemma lasting_deref (L : lua_State) (s : lua_ref_seq) (vs : list lua_value) :
  Forall2 (lasting L) s vs -> map (deref L) s = vs.
Proof.
  induction 1 as [|r v s' vs' Hrv Hf IH]; [reflexivity|].
  simpl. f_equal; [|exact IH].
  apply (Hrv L []). rewrite app_nil_r. reflexivity.
Qed.

(** X12. [fcn_call] for all results: one reference per result, in the order of
    the results, each standing for its result. *)
Theorem fcn_call_all_in_order (L : lua_State) (below args rs : list lua_value)
        (f : lua_value) :
  stack L = below ++ f :: args ->
  call_value L f args = vm_return rs ->
  length rs <= vm_mem L ->
  length rs <= host_mem L ->
  exists (s : lua_ref_seq) (L' : lua_State),
    fcn_call_all (Z.of_nat (length args)) L = Ok (expected_value s) L'
    /\ map (deref L') s = rs
    /\ stack L' = below.
Proof.
  intros Hs Hc Hv Hh. unfold fcn_call_all, fcn_call, bind, effect_of.
  rewrite (pcall_helper_at L below args f _ _ Hs eq_refl), Hc.
  change (negb (LUA_OK =? LUA_OK)%Z) with false. cbv iota.
  set (L1 := set_stack (log_call L f args)
                       (below ++ adjust_results (nrets ret_lua_ref_seq) rs)).
  unfold return_helper_pop, try_bad_alloc, bind, observe, pop_n.
  replace (Z.to_nat (lua_gettop L1 - (Z.of_nat (length below) + 1) + 1))
    with (length rs)
    by (unfold lua_gettop; subst L1; simpl; rewrite length_app;
        unfold adjust_results; simpl; lia).
  destruct (pop_n_loop_values (length rs) [] L1 below rs)
    as (s & L' & ext & Hr & Hs' & He & Hf);
    [reflexivity|reflexivity|exact Hv|exact Hh|].
  rewrite Hr, app_nil_r. unfold ret. exists s, L'.
  repeat split; auto.
  apply lasting_deref, Hf.
Qed.

Lemma fcn_call_all_in_order_witness :
  exists (s : lua_ref_seq) (L' : lua_State),
    fcn_call_all 1 (sample_env [VNil; VFun 1; VInt 3] 40)
    = Ok (expected_value s) L'
    /\ map (deref L') s = [VInt 1; VInt 2]
    /\ stack L' = [VNil].
Proof.
  apply (fcn_call_all_in_order (sample_env [VNil; VFun 1; VInt 3] 40)
           [VNil] [VInt 3] [VInt 1; VInt 2] (VFun 1) eq_refl eq_refl);
    simpl; lia.
Defined.

Lemma return_helper_pop_no_bad_alloc (T : return_kind) (idx : Z)
      (L L' : lua_State) :
  return_helper_pop T idx L <> BadAlloc L'.
Proof.
  destruct T; unfold return_helper_pop.
  - discriminate.
  - unfold bind, ret.
    destruct (lua_ref_ctor false L) as [r L1|k e L1|L1] eqn:E;
      try discriminate.
    exfalso. eapply lua_ref_ctor_no_bad_alloc, E.
  - unfold try_bad_alloc, bind, observe, ret.
    destruct (pop_n _ L); discriminate.
Qed.

Lemma resume_helper_no_bad_alloc (narg : Z) (L L' : lua_State) :
  resume_helper narg L <> BadAlloc L'.
Proof.
  unfold resume_helper, bind, observe, effect_of, effect, ret.
  destruct (lua_resume L narg) as [L1 code].
  destruct (negb (code =? LUA_OK)%Z && negb (code =? LUA_YIELD)%Z);
    [|discriminate].
  unfold lua_call.
  destruct (call_value _ _ _); discriminate.
Qed.

(** X13. No host exception leaves a call or a resume, whatever the return shape:
    the one that draining can throw is caught and reported in the result. *)
Theorem no_bad_alloc_escapes (T : return_kind) (narg : Z) (L L' : lua_State) :
  fcn_call T narg L <> BadAlloc L'
  /\ resume_call T narg L <> BadAlloc L'.
Proof.
  split.
  - unfold fcn_call, bind, effect_of.
    destruct (pcall_helper narg (nrets T) L) as [L1 [code idx]].
    destruct (negb (code =? LUA_OK)%Z).
    + destruct (pop_error L1 code). discriminate.
    + apply return_helper_pop_no_bad_alloc.
  - unfold resume_call. unfold bind at 1.
    destruct (resume_helper narg L) as [[code idx] L1|k e L1|L1] eqn:E.
    + unfold bind at 1.
      destruct ((code =? LUA_OK)%Z || (code =? LUA_YIELD)%Z).
      * destruct (return_helper_pop T idx L1) as [r L2|k e L2|L2] eqn:Ep;
          try discriminate.
        exfalso. eapply return_helper_pop_no_bad_alloc, Ep.
      * unfold bind, effect_of, effect, ret.
        destruct (pop_error L1 code). discriminate.
    + discriminate.
    + exfalso. eapply resume_helper_no_bad_alloc, E.
Qed.

(** What [lua_resume] does to a coroutine that has not started, with its body
    beneath the arguments. *)
Lemma lua_resume_fresh (L : lua_State) (below args : list lua_value) (f : nat) :
  stack L = below ++ VFun f :: args ->
  status L = LUA_OK ->
  lua_resume L (Z.of_nat (length args))
  = let L1 := log_call L (VFun f) args in
    match vm_resume L f args with
    | co_return rs =>
        (set_status (set_stack L1 (below ++ rs)) LUA_OK 0, LUA_OK)
    | co_yield rs k =>
        (set_status (set_stack L1 (below ++ rs)) LUA_YIELD k, LUA_YIELD)
    | co_error c residue e =>
        (set_status (set_stack L1 (residue ++ [e])) (err_code c) 0, err_code c)
    end.
Proof.
  intros Hs Hst. unfold lua_resume, resume_target. rewrite Hst, Hs. simpl Z.eqb.
  cbv iota. rewrite Nat2Z.id, length_app. simpl length.
  replace (length below + S (length args) - length args - 1)
    with (length below) by lia.
  replace (length below + S (length args) - length args)
    with (S (length below)) by lia.
  rewrite list_lookup_middle by reflexivity.
  rewrite take_app_length.
  replace (below ++ VFun f :: args) with ((below ++ [VFun f]) ++ args)
    by (rewrite <- app_assoc; reflexivity).
  rewrite (drop_app_length' (below ++ [VFun f]) args)
    by (rewrite length_app; simpl; lia).
  reflexivity.
Qed.



Lemma same_run_refl (L : lua_State) : same_run L L.
Proof. repeat split. Qed.

Lemma same_run_trans (L1 L2 L3 : lua_State) :
  same_run L1 L2 -> same_run L2 L3 -> same_run L1 L3.
Proof.
  unfold same_run. intros (a & b & c & d) (a' & b' & c' & d').
  repeat split; congruence.
Qed.

Lemma lua_ref_ctor_keeps (L : lua_State) :
  same_run L (final (lua_ref_ctor false L)).
Proof.
  unfold lua_ref_ctor, bind, luaL_ref, observe.
  destruct (index2value L (-1));
    try (destruct (vm_mem L) eqn:E; [apply same_run_refl|]);
    simpl; unfold lua_pop, lua_settop;
    match goal with
    | |- context [if ?b then _ else _] => destruct b
    end; repeat split.
Qed.

Lemma pop_n_loop_keeps (n : nat) :
  forall (acc : lua_ref_seq) (L : lua_State),
    same_run L (final (pop_n_loop n acc L)).
Proof.
  induction n as [|n IH]; intros acc L.
  - apply same_run_refl.
  - rewrite pop_n_loop_S.
    destruct (host_mem L) as [|hm]; [apply same_run_refl|].
    pose proof (lua_ref_ctor_keeps (set_host_mem L hm)) as E.
    destruct (lua_ref_ctor false (set_host_mem L hm)) as [r L1|k e L1|L1];
      simpl in E |- *; try exact E.
    eapply same_run_trans; [exact E|apply IH].
Qed.

Lemma return_helper_pop_keeps (T : return_kind) (idx : Z) (L : lua_State) :
  same_run L (final (return_helper_pop T idx L)).
Proof.
  destruct T; unfold return_helper_pop.
  - apply same_run_refl.
  - unfold bind, ret.
    pose proof (lua_ref_ctor_keeps L) as E.
    destruct (lua_ref_ctor false L); exact E.
  - unfold try_bad_alloc, bind, observe, pop_n, ret.
    pose proof (pop_n_loop_keeps (Z.to_nat (lua_gettop L - idx + 1)) [] L) as E.
    destruct (pop_n_loop _ [] L); exact E.
Qed.

(** A call invokes the callable once, with the arguments given, however it
    ends. *)
Lemma fcn_call_invokes_once (T : return_kind) (L : lua_State)
      (below args : list lua_value) (f : lua_value) :
  stack L = below ++ f :: args ->
  let L' := final (fcn_call T (Z.of_nat (length args)) L) in
  calls L' = calls L ++ [(f, args)] /\ env_id L' = env_id L.
Proof.
  intros Hs. unfold fcn_call, bind, effect_of.
  rewrite (pcall_helper_at L below args f _ _ Hs eq_refl).
  destruct (call_value L f args) as [rs|k e].
  - change (negb (LUA_OK =? LUA_OK)%Z) with false. cbv iota.
    match goal with
    | |- context [return_helper_pop T ?i ?L1] =>
        destruct (return_helper_pop_keeps T i L1) as (Hc & _ & _ & He)
    end.
    simpl. rewrite Hc, He. split; reflexivity.
  - rewrite err_code_not_ok. simpl. split; reflexivity.
Qed.

(** ** primer/bound_function.hpp *)

Lemma call_value_set_slots (L : lua_State) (n : nat) (f : lua_value)
      (args : list lua_value) :
  call_value (set_slots L n) f args = call_value L f args.
Proof. destruct f; reflexivity. Qed.

(** A check that succeeds changes the allocated size at most. *)
Lemma lua_checkstack_succeeds (L L' : lua_State) (n : Z) :
  lua_checkstack L n = (L', true) ->
  exists m, L' = set_slots L m.
Proof.
  unfold lua_checkstack.
  destruct (_ <=? slots L)%nat.
  - intros [= <-]. exists (slots L). destruct L; reflexivity.
  - destruct (_ <=? max_slots L)%nat; [|discriminate].
    intros [= <-]. eauto.
Qed.

(** What is left of a protected call once the check has passed: the callable
    and the arguments are pushed on a stack that has room, and called. *)
Lemma mem_pcall_call (T : return_kind) (L : lua_State) (m : nat)
      (f : lua_value) (vals : list lua_value)
      (body : M (expected (return_type T))) :
  body (set_slots L m)
  = fcn_call T (Z.of_nat (length vals))
             (set_stack (set_slots L m) (stack L ++ f :: vals)) ->
  (forall rs, call_value L f vals = vm_return rs ->
              length (adjust_results (nrets T) rs) <= vm_mem L
              /\ length (adjust_results (nrets T) rs) <= host_mem L) ->
  exists (L' : lua_State) (r : expected (return_type T)),
    mem_pcall body (set_slots L m) = (L', expected_value tt, Some r)
    /\ stack L' = stack L
    /\ calls L' = calls L ++ [(f, vals)]
    /\ match call_value L f vals with
       | vm_return _ => is_value r = true
       | vm_error k e =>
           r = expected_error
                 {| what := error_text (err_code k) (intercepted L k e) |}
       end.
Proof.
  intros Hb Hm. unfold mem_pcall. rewrite Hb.
  set (L2 := set_stack (set_slots L m) (stack L ++ f :: vals)).
  assert (Hs2 : stack L2 = stack L ++ f :: vals) by reflexivity.
  assert (Hcv : call_value L2 f vals = call_value L f vals).
  { unfold L2. rewrite call_value_set_stack. apply call_value_set_slots. }
  destruct (fcn_call_invokes_once T L2 (stack L) vals f Hs2) as [Hcalls _].
  destruct (call_value L f vals) as [rs|k e] eqn:Hc.
  - destruct (Hm rs eq_refl) as [Hv Hh].
    destruct (fcn_call_success T L2 (stack L) vals rs f Hs2 Hcv Hv Hh)
      as (r & L' & Hr & Hs' & _).
    rewrite Hr in Hcalls |- *. simpl in Hcalls.
    exists L', (expected_value r). repeat split; auto.
  - rewrite (fcn_call_error T L2 (stack L) vals f k e Hs2 Hcv) in Hcalls |- *.
    eexists _, _. split; [reflexivity|]. repeat split.
Qed.

Lemma call_impl_at (T : return_kind) (L : lua_State) (k : Z)
      (args : list host_arg) :
  call_impl T (ref (env_id L) k) args L
  = fcn_call T (Z.of_nat (length (map arg_value args)))
             (set_stack L (stack L ++ lua_rawgeti_registry L k
                             :: map arg_value args)).
Proof.
  unfold call_impl, bind, lua_ref_push, push_each, effect.
  rewrite Nat.eqb_refl, length_map. f_equal.
  unfold lua_pushvalue_of, set_stack. simpl. rewrite <- app_assoc.
  reflexivity.
Qed.

(** X15. The call methods with typed arguments "clean up after themselves and
    leave the stack as they found it": once the capacity check has passed,
    and provided the VM and the host have memory for the references to the
    results the return shape retains, the referenced callable is invoked
    once with the marshalled arguments, and the environment comes back with
    its stack as it was, the result holding the values or the VM's error. *)
Theorem protected_call_leaves_stack (reserve : Z) (T : return_kind)
        (e : nat) (k : Z) (w : gmap nat lua_State) (L : lua_State)
        (args : list host_arg) :
  w !! e = Some L ->
  env_id L = e ->
  is_value (snd (check_stack_push_each reserve
                   (push_int :: map arg_trait args) L)) = true ->
  (forall rs,
      call_value L (lua_rawgeti_registry L k) (map arg_value args)
      = vm_return rs ->
      length (adjust_results (nrets T) rs) <= vm_mem L
      /\ length (adjust_results (nrets T) rs) <= host_mem L) ->
  exists (L' : lua_State) (r : expected (return_type T)),
    protected_call reserve T {| ref_ := ref e k |} args w
    = (<[e := L']> w, r)
    /\ stack L' = stack L
    /\ calls L' = calls L ++ [(lua_rawgeti_registry L k, map arg_value args)]
    /\ match call_value L (lua_rawgeti_registry L k) (map arg_value args) with
       | vm_return _ => is_value r = true
       | vm_error c err =>
           r = expected_error
                 {| what := error_text (err_code c) (intercepted L c err) |}
       end.
Proof.
  intros Hw He Hck Hm. unfold protected_call. cbn [ref_ lua_ref_lock].
  rewrite Hw. unfold check_stack_push_each in *.
  destruct (lua_checkstack L _) as [L1 [|]] eqn:Ecs; [|discriminate Hck].
  apply lua_checkstack_succeeds in Ecs as [m ->].
  destruct (mem_pcall_call T L m (lua_rawgeti_registry L k)
              (map arg_value args)
              (call_impl T (ref e k) args))
    as (L' & r & Hp & Hs & Hc & Hr).
  { rewrite <- He at 1.
    change (env_id L) with (env_id (set_slots L m)).
    rewrite call_impl_at. reflexivity. }
  { exact Hm. }
  rewrite Hp. exists L', r. cbn [store default]. auto.
Qed.

Lemma protected_call_leaves_stack_witness :
  let held := set_registry (sample_env [VInt 5] 40) [VFun 1] 8 in
  exists (L' : lua_State) (r : expected lua_ref),
    call_one_ret 20 {| ref_ := ref 0 0 |}
      [ {| arg_trait := push_int; arg_value := VInt 10 |} ] {[ 0 := held ]}
    = (<[0 := L']> {[ 0 := held ]}, r)
    /\ stack L' = [VInt 5].
Proof.
  intros held.
  destruct (protected_call_leaves_stack 20 ret_lua_ref 0 0 {[ 0 := held ]}
              held [ {| arg_trait := push_int; arg_value := VInt 10 |} ])
    as (L' & r & Hp & Hs & _).
  - apply lookup_singleton_eq.
  - reflexivity.
  - reflexivity.
  - intros rs _. rewrite adjust_results_length by (simpl; lia). simpl. lia.
  - exists L', r. split; [exact Hp|exact Hs].
Defined.

(** Pushing a sequence of references of the environment itself pushes the
    values they stand for, in order. *)
Lemma lua_ref_seq_push_each_own (inputs : lua_ref_seq) :
  forall (L : lua_State),
    Forall (fun r => exists k, r = ref (env_id L) k) inputs ->
    lua_ref_seq_push_each inputs L
    = Ok tt (set_stack L (stack L ++ map (deref L) inputs)).
Proof.
  induction inputs as [|r rest IH]; intros L Hall.
  - simpl. rewrite app_nil_r, set_stack_id. reflexivity.
  - apply Forall_cons in Hall as [[k ->] Hrest].
    cbn [lua_ref_seq_push_each]. unfold bind at 1, lua_ref_push.
    rewrite Nat.eqb_refl.
    rewrite (IH (lua_pushvalue_of L (lua_rawgeti_registry L k)))
      by exact Hrest.
    f_equal. unfold lua_pushvalue_of, set_stack. simpl.
    rewrite <- app_assoc. reflexivity.
Qed.

Lemma call_impl2_at (T : return_kind) (L : lua_State) (k : Z)
      (inputs : lua_ref_seq) :
  Forall (fun r => exists k', r = ref (env_id L) k') inputs ->
  call_impl2 T (ref (env_id L) k) inputs L
  = fcn_call T (Z.of_nat (length (map (deref L) inputs)))
             (set_stack L (stack L ++ lua_rawgeti_registry L k
                             :: map (deref L) inputs)).
Proof.
  intros Hall. unfold call_impl2. unfold bind at 1, lua_ref_push.
  rewrite Nat.eqb_refl. unfold bind at 1.
  rewrite lua_ref_seq_push_each_own by exact Hall.
  rewrite length_map. f_equal.
  unfold lua_pushvalue_of, set_stack. simpl. rewrite <- app_assoc.
  reflexivity.
Qed.

(** X16. The call methods with a sequence of references of the token's own
    environment: once the capacity check has passed, and provided the VM and
    the host have memory for the references to the results the return shape
    retains, the callable is invoked once on the values the references stand
    for, in order, and the environment's stack comes back as it was, the
    result holding the values or the VM's error. *)
Theorem protected_call2_leaves_stack (T : return_kind)
        (e : nat) (k : Z) (w : gmap nat lua_State) (L : lua_State)
        (inputs : lua_ref_seq) :
  w !! e = Some L ->
  env_id L = e ->
  Forall (fun r => exists k', r = ref e k') inputs ->
  is_value (snd (check_stack_push_n L (1 + Z.of_nat (length inputs)))) = true ->
  (forall rs,
      call_value L (lua_rawgeti_registry L k) (map (deref L) inputs)
      = vm_return rs ->
      length (adjust_results (nrets T) rs) <= vm_mem L
      /\ length (adjust_results (nrets T) rs) <= host_mem L) ->
  exists (L' : lua_State) (r : expected (return_type T)),
    protected_call2 T {| ref_ := ref e k |} inputs w = (<[e := L']> w, r)
    /\ stack L' = stack L
    /\ calls L'
       = calls L ++ [(lua_rawgeti_registry L k, map (deref L) inputs)]
    /\ match call_value L (lua_rawgeti_registry L k)
                        (map (deref L) inputs) with
       | vm_return _ => is_value r = true
       | vm_error c err =>
           r = expected_error
                 {| what := error_text (err_code c) (intercepted L c err) |}
       end.
Proof.
  intros Hw He Hall Hck Hm. unfold protected_call2. cbn [ref_ lua_ref_lock].
  rewrite Hw. unfold check_stack_push_n in *.
  destruct (lua_checkstack L _) as [L1 [|]] eqn:Ecs; [|discriminate Hck].
  apply lua_checkstack_succeeds in Ecs as [m ->].
  destruct (mem_pcall_call T L m (lua_rawgeti_registry L k)
              (map (deref L) inputs)
              (call_impl2 T (ref e k) inputs))
    as (L' & r & Hp & Hs & Hc & Hr).
  { subst e.
    change (env_id L) with (env_id (set_slots L m)) at 1.
    rewrite call_impl2_at by exact Hall. reflexivity. }
  { exact Hm. }
  rewrite Hp. exists L', r. cbn [store default]. auto.
Qed.

Lemma protected_call2_leaves_stack_witness :
  let held := set_registry (sample_env [VInt 5] 40) [VFun 1; VInt 9] 8 in
  exists (L' : lua_State) (r : expected unit),
    call_no_ret_seq {| ref_ := ref 0 0 |} [ref 0 1] {[ 0 := held ]}
    = (<[0 := L']> {[ 0 := held ]}, r)
    /\ calls L' = [(VFun 1, [VInt 9])].
Proof.
  intros held.
  destruct (protected_call2_leaves_stack ret_void 0 0 {[ 0 := held ]}
              held [ref 0 1])
    as (L' & r & Hp & _ & Hc & _).
  - apply lookup_singleton_eq.
  - reflexivity.
  - repeat constructor. exists 1%Z. reflexivity.
  - reflexivity.
  - intros rs _. rewrite adjust_results_length by (simpl; lia). simpl. lia.
  - exists L', r. split; [exact Hp|exact Hc].
Defined.

(** X17. Capturing a function from the top of the stack and pushing the token
    again gives the stack back: the token tests true and stands for the
    function it took. *)
Theorem capture_push_round_trip (L : lua_State) (below : list lua_value)
        (v : lua_value) :
  stack L = below ++ [v] ->
  lua_isfunction L (-1) = true ->
  vm_mem L <> 0 ->
  exists (bf : bound_function) (L1 L2 : lua_State),
    bound_function_of_stack L = Ok bf L1
    /\ to_bool bf = true
    /\ stack L1 = below
    /\ lua_ref_push (ref_ bf) L1 = Ok true L2
    /\ stack L2 = stack L.
Proof.
  intros Hs Hf Hm. unfold bound_function_of_stack, bind, observe.
  assert (Ht : (lua_gettop L =? 0)%Z = false).
  { apply Z.eqb_neq. unfold lua_gettop. rewrite Hs, length_app. simpl. lia. }
  rewrite Ht. change (negb false) with true. cbv beta iota. rewrite Hf.
  destruct (lua_ref_ctor_top L below v Hs) as (k & L1 & Hr & Hs1 & Hv & _);
    [right; exact Hm|].
  pose proof (lua_ref_ctor_keeps L) as Hk. rewrite Hr in Hk.
  destruct Hk as (_ & _ & _ & He). simpl in He.
  rewrite Hr. unfold ret.
  eexists _, L1, _. split; [reflexivity|]. cbn [ref_ to_bool].
  split; [reflexivity|]. split; [exact Hs1|].
  unfold lua_ref_push. rewrite <- He, Nat.eqb_refl.
  split; [reflexivity|]. simpl. rewrite Hs1, Hv, Hs. reflexivity.
Qed.

Lemma capture_push_round_trip_witness :
  exists (bf : bound_function) (L1 L2 : lua_State),
    bound_function_of_stack (sample_env [VInt 5; VFun 1] 40) = Ok bf L1
    /\ lua_ref_push (ref_ bf) L1 = Ok true L2
    /\ stack L2 = [VInt 5; VFun 1].
Proof.
  destruct (capture_push_round_trip (sample_env [VInt 5; VFun 1] 40)
              [VInt 5] (VFun 1) eq_refl eq_refl)
    as (bf & L1 & L2 & Hc & _ & _ & Hp & Hs).
  - simpl. discriminate.
  - exists bf, L1, L2. repeat split; assumption.
Defined.

(** ** Resuming *)

(** X18. After a resume of a coroutine that had not started, the context's status
    tells what the result alone does not: suspended after a yield, finished
    after a return, the error's code after a failure. *)
Theorem resume_status_tells (T : return_kind) (L L' : lua_State)
        (below args : list lua_value) (f : nat)
        (r : expected (return_type T)) :
  stack L = below ++ VFun f :: args ->
  status L = LUA_OK ->
  resume_call T (Z.of_nat (length args)) L = Ok r L' ->
  match vm_resume L f args with
  | co_return _ => status L' = LUA_OK
  | co_yield _ k => status L' = LUA_YIELD /\ cont L' = k
  | co_error c _ _ => status L' = err_code c /\ is_value r = false
  end.
Proof.
  intros Hs Hst Hr.
  pose proof (lua_resume_fresh L below args f Hs Hst) as Hres.
  assert (Hset : forall L0 i, status (lua_settop L0 i) = status L0
                              /\ cont (lua_settop L0 i) = cont L0).
  { intros L0 i. unfold lua_settop. destruct (0 <=? i)%Z; split; reflexivity. }
  assert (Hok : forall L1 code,
             lua_resume L (Z.of_nat (length args)) = (L1, code) ->
             (code =? LUA_OK)%Z || (code =? LUA_YIELD)%Z = true ->
             status L' = status L1 /\ cont L' = cont L1).
  { intros L1 code Hl Hc. unfold resume_call in Hr. unfold bind at 1 in Hr.
    rewrite (resume_helper_ok L L1 _ code Hl Hc), Hc in Hr.
    unfold bind at 1 in Hr.
    match type of Hr with
    | context [return_helper_pop T ?i L1] =>
        pose proof (return_helper_pop_keeps T i L1) as Hk;
        destruct (return_helper_pop T i L1) as [x L2| |]; try discriminate
    end.
    unfold bind, effect, ret in Hr. injection Hr as _ <-.
    destruct Hk as (_ & Hk1 & Hk2 & _). simpl in Hk1, Hk2.
    destruct (Hset L2 (lua_absindex L (-1 - Z.of_nat (length args)) - 1)%Z)
      as [-> ->]. split; assumption. }
  destruct (vm_resume L f args) as [rs|rs k|c residue e].
  - destruct (Hok _ _ Hres eq_refl) as [-> _]. reflexivity.
  - destruct (Hok _ _ Hres eq_refl) as [-> ->]. split; reflexivity.
  - rewrite (resume_call_error T L _ _ (err_code c) residue e Hres) in Hr.
    + injection Hr as <- <-.
      match goal with
      | |- context [lua_settop ?L0 ?i] => destruct (Hset L0 i) as [-> _]
      end. split; reflexivity.
    + rewrite err_code_not_ok, err_code_not_yield. reflexivity.
    + reflexivity.
Qed.

Lemma resume_status_tells_witness :
  match resume_no_ret 0 (sample_env [VFun 1] 40) with
  | Ok _ L' => status L' = LUA_YIELD /\ cont L' = 2
  | _ => False
  end.
Proof.
  destruct (resume_no_ret 0 (sample_env [VFun 1] 40)) as [r L'| |] eqn:E;
    try discriminate E.
  exact (resume_status_tells ret_void (sample_env [VFun 1] 40) L' [] [] 1 r
           eq_refl eq_refl E).
Defined.

(** ** primer/container/visit_struct.hpp *)

(** X19. Reading leaves the environment exactly as it found it, whatever the type
    read, the index and the outcome: every field pushed is popped again. *)
Theorem from_stack_is_stack_neutral (T : cpp_type) (L : lua_State) (idx : Z) :
  fst (from_stack T L idx) = L.
Proof. apply from_stack_neutral. Qed.

Lemma apply_visitor_values (ms : list member) (vis : read_helper)
      (L : lua_State) :
  Forall neutral ms ->
  is_value (ok vis) = true ->
  Forall (fun m => is_value (member_read L (index vis) m) = true) ms ->
  exists vs,
    apply_visitor vis ms L = (L, vis, vs)
    /\ Forall2 (fun m v => fst v = fst (fst m)
                           /\ member_read L (index vis) m
                              = expected_value (snd v)) ms vs.
Proof.
  intros Hn Hok Hall. induction ms as [|m ms IH].
  - exists []. split; [reflexivity|constructor].
  - apply Forall_cons in Hn as [Hm Hn]. apply Forall_cons in Hall as [Hr Hall].
    destruct (IH Hn Hall) as (vs & Hvs & Hf).
    cbn [apply_visitor].
    assert (Hv : exists v, read_helper_visit vis m L = (L, vis, v)
                           /\ member_read L (index vis) m = expected_value v).
    { unfold read_helper_visit, member_read, neutral in *.
      destruct m as [[name fs] d]. simpl in *. rewrite Hok. simpl.
      specialize (Hm (lua_getfield L (index vis) name) (-1)%Z).
      destruct (fs (lua_getfield L (index vis) name) (-1)%Z) as [L' res].
      simpl in *. subst L'. rewrite lua_getfield_pop.
      destruct res as [v|e]; [|discriminate]. eauto. }
    destruct Hv as (v & -> & Hmv). rewrite Hvs.
    exists ((fst (fst m), v) :: vs). split; [reflexivity|].
    constructor; [split; [reflexivity|exact Hmv]|exact Hf].
Qed.

Lemma from_stack_members_ok (ms : list (string * cpp_type)) (L : lua_State)
      (idx : Z) :
  lua_istable L (lua_absindex L idx) = true ->
  Forall (reads_well L (lua_absindex L idx)) ms ->
  exists (vs : list (string * host_value)),
    from_stack (visitable ms) L idx = (L, expected_value (host_struct vs))
    /\ map fst vs = map fst ms
    /\ Forall2 (fun m v =>
                  snd (from_stack (snd m)
                         (lua_getfield L (lua_absindex L idx) (fst m)) (-1)%Z)
                  = expected_value (snd v)) ms vs.
Proof.
  intros Ht Hall. simpl. rewrite Ht. simpl.
  match goal with
  | |- context [apply_visitor ?v ?l L] =>
      destruct (apply_visitor_values l v L) as (vs & Hvs & Hf)
  end.
  - apply Forall_map, Forall_forall. intros m _ L0 i0. apply from_stack_neutral.
  - reflexivity.
  - apply Forall_map. eapply Forall_impl; [exact Hall|]. intros m Hm. exact Hm.
  - rewrite Hvs. simpl. exists vs. split; [reflexivity|].
    clear Hvs Hall. revert vs Hf.
    induction ms as [|m ms IH]; intros vs Hf.
    + inversion Hf. split; constructor.
    + simpl in Hf. inversion Hf as [|? v ? vs' [Hname Hval] Hrest]; subst.
      destruct (IH vs' Hrest) as [Hn Hv].
      split; [simpl; f_equal; auto|constructor; auto].
Qed.

(** X20. When the value is a table and every member converts, the structure read
    has the members' names in declaration order, each with the value its own
    trait read from the field of that name. *)
Theorem from_stack_all_members (ms : list (string * cpp_type)) (L : lua_State)
        (idx : Z) :
  lua_istable L (lua_absindex L idx) = true ->
  Forall (reads_well L (lua_absindex L idx)) ms ->
  exists (vs : list (string * host_value)),
    from_stack (visitable ms) L idx = (L, expected_value (host_struct vs))
    /\ map fst vs = map fst ms
    /\ Forall2 (fun m v =>
                  snd (from_stack (snd m)
                         (lua_getfield L (lua_absindex L idx) (fst m)) (-1)%Z)
                  = expected_value (snd v)) ms vs.
Proof. exact (from_stack_members_ok ms L idx). Qed.

Lemma from_stack_all_members_witness :
  let L := sample_env [VTable [("y", VInt 2); ("x", VInt 1)]] 40 in
  exists (vs : list (string * host_value)),
    from_stack (visitable [("x", int_type); ("y", int_type)]) L 1
    = (L, expected_value (host_struct vs))
    /\ map fst vs = ["x"; "y"].
Proof.
  intros L.
  destruct (from_stack_all_members [("x", int_type); ("y", int_type)] L 1)
    as (vs & Hr & Hn & _).
  - reflexivity.
  - repeat constructor.
  - exists vs. split; [exact Hr|exact Hn].
Defined.

(** X21. The first member that fails decides the result: its error comes back
    with its name in front, and the members after it are not read, whether
    they would convert or not. *)
Theorem first_failing_member_decides (pre post post' : list (string * cpp_type))
        (f : string) (T : cpp_type) (L : lua_State) (idx : Z) (e : error) :
  lua_istable L (lua_absindex L idx) = true ->
  Forall (reads_well L (lua_absindex L idx)) pre ->
  snd (from_stack T (lua_getfield L (lua_absindex L idx) f) (-1)%Z)
  = expected_error e ->
  from_stack (visitable (pre ++ (f, T) :: post)) L idx
  = (L, expected_error
          {| what := context_line f +:+ newline +:+ what e |})
  /\ from_stack (visitable (pre ++ (f, T) :: post)) L idx
     = from_stack (visitable (pre ++ (f, T) :: post')) L idx.
Proof.
  intros Ht Hpre He.
  rewrite (from_stack_member_error pre post f T L idx e Ht Hpre He).
  rewrite (from_stack_member_error pre post' f T L idx e Ht Hpre He).
  split; reflexivity.
Qed.

Lemma first_failing_member_decides_witness :
  let L := sample_env [VTable [("x", VStr "one"); ("y", VStr "two")]] 40 in
  from_stack (visitable [("x", int_type); ("y", int_type)]) L (-1)
  = (L, expected_error
          {| what := context_line "x" +:+ newline +:+
                     "Expected integer, found string" |}).
Proof.
  intros L.
  apply (first_failing_member_decides [] [("y", int_type)] [] "x" int_type
           L (-1) (unexpected_value "integer" "string")).
  - reflexivity.
  - constructor.
  - reflexivity.
Defined.

(** ** Pushing visitable structures *)

(** Induction over host values, through the member lists. *)
Fixpoint host_value_nested_ind (P : host_value -> Prop)
         (Hprim : forall v, P (host_prim v))
         (Hstruct : forall ms, Forall (fun m => P (snd m)) ms ->
                               P (host_struct ms))
         (t : host_value) : P t :=
  match t with
  | host_prim v => Hprim v
  | host_struct ms =>
      Hstruct ms
              ((fix go (ms : list (string * host_value))
                  : Forall (fun m => P (snd m)) ms :=
                  match ms with
                  | [] => List.Forall_nil _
                  | m :: rest =>
                      @List.Forall_cons _ (fun m => P (snd m)) m rest
                        (host_value_nested_ind P Hprim Hstruct (snd m))
                        (go rest)
                  end) ms)
  end.

(** *** Tables *)

Lemma table_get_remove_same (fields : list (string * lua_value)) (k : string) :
  table_get (table_remove fields k) k = VNil.
Proof.
  induction fields as [|[k' v] rest IH]; simpl; [reflexivity|].
  destruct (String.eqb k' k) eqn:E; [exact IH|].
  simpl. rewrite E. exact IH.
Qed.

Lemma table_get_remove_other (fields : list (string * lua_value))
      (k k' : string) :
  k <> k' -> table_get (table_remove fields k) k' = table_get fields k'.
Proof.
  intros Hne. induction fields as [|[k0 v] rest IH]; simpl; [reflexivity|].
  destruct (String.eqb_spec k0 k) as [->|Hk].
  - destruct (String.eqb_spec k k'); [contradiction|exact IH].
  - simpl. rewrite IH. reflexivity.
Qed.

Lemma table_get_snoc_other (fields : list (string * lua_value))
      (k k' : string) (v : lua_value) :
  k <> k' -> table_get (fields ++ [(k, v)]) k' = table_get fields k'.
Proof.
  intros Hne. induction fields as [|[k0 v0] rest IH]; simpl.
  - destruct (String.eqb_spec k k'); [contradiction|reflexivity].
  - destruct (String.eqb k0 k'); [reflexivity|exact IH].
Qed.

Lemma table_get_snoc_removed (fields : list (string * lua_value)) (k : string)
      (v : lua_value) :
  table_get (table_remove fields k ++ [(k, v)]) k = v.
Proof.
  induction fields as [|[k0 v0] rest IH]; simpl.
  - rewrite String.eqb_refl. reflexivity.
  - destruct (String.eqb k0 k) eqn:E; [exact IH|].
    simpl. rewrite E. exact IH.
Qed.

(** A field reads back what was last stored under its name, nil once it was
    removed; the other fields are as they were. *)
Lemma table_get_set_same (fields : list (string * lua_value)) (k : string)
      (v : lua_value) :
  table_get (table_set fields k v) k = v.
Proof.
  unfold table_set.
  destruct v; try apply table_get_snoc_removed. apply table_get_remove_same.
Qed.

Lemma table_get_set_other (fields : list (string * lua_value)) (k k' : string)
      (v : lua_value) :
  k <> k' -> table_get (table_set fields k v) k' = table_get fields k'.
Proof.
  intros Hne. unfold table_set.
  destruct v;
    try (rewrite table_get_snoc_other by exact Hne);
    apply table_get_remove_other, Hne.
Qed.

(** *** The pushing visitor *)

Lemma set_stack_set_stack (L : lua_State) (s1 s2 : list lua_value) :
  set_stack (set_stack L s1) s2 = set_stack L s2.
Proof. reflexivity. Qed.

Lemma lua_setfield_beneath_top (L : lua_State) (st : list lua_value)
      (fields : list (string * lua_value)) (x : lua_value) (k : string) :
  stack L = st ++ [VTable fields; x] ->
  lua_setfield (-2) k L
  = Ok tt (set_stack L (st ++ [VTable (table_set fields k x)])).
Proof.
  intros Hs. unfold lua_setfield.
  assert (Hi : lua_absindex L (-2) = (Z.of_nat (length st) + 1)%Z).
  { rewrite lua_absindex_neg by lia. unfold lua_gettop.
    rewrite Hs, length_app. simpl. lia. }
  rewrite (index2value_at L st [x] (VTable fields) (-2) Hs Hi).
  rewrite (index2value_top L (st ++ [VTable fields]) x)
    by (rewrite Hs, <- app_assoc; reflexivity).
  rewrite Hi, Hs.
  replace (Z.to_nat (Z.of_nat (length st) + 1 - 1)) with (length st) by lia.
  rewrite insert_app_r_alt by lia. rewrite Nat.sub_diag. simpl.
  rewrite (lua_pop_top _ (st ++ [VTable (table_set fields k x)]) x)
    by (simpl; rewrite <- app_assoc; reflexivity).
  reflexivity.
Qed.

Lemma apply_push_at (ms : list (string * host_value)) :
  Forall (fun m => forall L,
              to_stack (snd m) L = Ok tt (lua_pushvalue_of L (encode (snd m))))
         ms ->
  forall (L : lua_State) (st : list lua_value)
         (fields : list (string * lua_value)),
    stack L = st ++ [VTable fields] ->
    apply_push (map (fun m => (fst m, to_stack (snd m))) ms) L
    = Ok tt (set_stack L
               (st ++ [VTable (fold_left
                                 (fun fields m =>
                                    table_set fields (fst m) (encode (snd m)))
                                 ms fields)])).
Proof.
  induction ms as [|m ms IH]; intros Hall L st fields Hs.
  - simpl. rewrite <- Hs, set_stack_id. reflexivity.
  - apply Forall_cons in Hall as [Hm Hall].
    cbn [map apply_push fold_left]. unfold bind at 1, push_helper_visit.
    cbn [fst snd]. unfold bind at 1. rewrite Hm.
    rewrite (lua_setfield_beneath_top _ st fields (encode (snd m)))
      by (simpl; rewrite Hs, <- app_assoc; reflexivity).
    rewrite (IH Hall _ st (table_set fields (fst m) (encode (snd m))))
      by reflexivity.
    reflexivity.
Qed.

Lemma to_stack_pushes (t : host_value) :
  forall (L : lua_State),
    to_stack t L = Ok tt (lua_pushvalue_of L (encode t)).
Proof.
  induction t as [v|ms IH] using host_value_nested_ind; intros L.
  - reflexivity.
  - cbn [to_stack]. unfold bind, effect, lua_createtable.
    rewrite (apply_push_at ms IH _ (stack L) []) by reflexivity.
    reflexivity.
Qed.

Lemma store_members_keeps (ms : list (string * host_value)) (k : string) :
  forall (fields : list (string * lua_value)),
    k ∉ map fst ms ->
    table_get (store_members fields ms) k = table_get fields k.
Proof.
  induction ms as [|m ms IH]; intros fields Hn; [reflexivity|].
  cbn [map] in Hn. apply not_elem_of_cons in Hn as [Hne Hn].
  change (store_members fields (m :: ms))
    with (store_members (table_set fields (fst m) (encode (snd m))) ms).
  rewrite IH by exact Hn.
  apply table_get_set_other. congruence.
Qed.

Lemma store_members_get (ms : list (string * host_value)) :
  NoDup (map fst ms) ->
  forall (fields : list (string * lua_value)),
    Forall (fun m => table_get (store_members fields ms) (fst m)
                     = encode (snd m)) ms.
Proof.
  induction ms as [|m ms IH]; intros Hnd fields; [constructor|].
  cbn [map] in Hnd. apply NoDup_cons in Hnd as [Hnotin Hnd].
  constructor.
  - change (store_members fields (m :: ms))
      with (store_members (table_set fields (fst m) (encode (snd m))) ms).
    rewrite (store_members_keeps ms (fst m)) by exact Hnotin.
    apply table_get_set_same.
  - apply (IH Hnd).
Qed.

(** X22. Pushing a host value never fails and leaves exactly one more value on
    the stack: for a structure, a table in which every member's name reads
    the member's own value, provided no name comes twice. *)
Theorem to_stack_pushes_one_table (ms : list (string * host_value))
        (L : lua_State) :
  NoDup (map fst ms) ->
  exists (fields : list (string * lua_value)),
    to_stack (host_struct ms) L = Ok tt (lua_pushvalue_of L (VTable fields))
    /\ Forall (fun m => table_get fields (fst m) = encode (snd m)) ms.
Proof.
  intros Hnd. exists (store_members [] ms).
  split; [apply to_stack_pushes|apply store_members_get, Hnd].
Qed.

Lemma to_stack_pushes_one_table_witness :
  exists (fields : list (string * lua_value)),
    to_stack (host_struct [("x", host_prim (VInt 1));
                           ("y", host_prim (VInt 2))])
             (sample_env [] 40)
    = Ok tt (lua_pushvalue_of (sample_env [] 40) (VTable fields))
    /\ table_get fields "y" = VInt 2.
Proof.
  destruct (to_stack_pushes_one_table
              [("x", host_prim (VInt 1)); ("y", host_prim (VInt 2))]
              (sample_env [] 40))
    as (fields & Hp & Hf).
  - apply (bool_decide_unpack _). vm_compute. exact I.
  - exists fields. split; [exact Hp|].
    apply Forall_cons in Hf as [_ Hf]. apply Forall_cons in Hf as [Hy _].
    exact Hy.
Defined.

Lemma conforms_visitable (ms : list (string * cpp_type))
      (vs : list (string * host_value)) :
  conforms (visitable ms) (host_struct vs)
  <-> NoDup (map fst vs)
      /\ Forall2 (fun m v => fst m = fst v /\ conforms (snd m) (snd v)) ms vs.
Proof.
  cbn [conforms]. apply and_iff_compat_l.
  revert vs. induction ms as [|m ms IH]; intros [|v vs]; split;
    try (intros H; inversion H; fail); try (intros []; fail).
  - constructor.
  - intros _. exact I.
  - intros (Hn & Hc & Hrest). constructor; [split; assumption|].
    apply IH, Hrest.
  - intros H. inversion H as [|? ? ? ? [Hn Hc] Hrest]; subst.
    split; [exact Hn|]. split; [exact Hc|]. apply IH, Hrest.
Qed.

Lemma lua_getfield_pushed_table (L : lua_State)
      (fields : list (string * lua_value)) (k : string) :
  lua_getfield (lua_pushvalue_of L (VTable fields))
               (lua_absindex (lua_pushvalue_of L (VTable fields)) (-1)) k
  = lua_pushvalue_of (lua_pushvalue_of L (VTable fields)) (table_get fields k).
Proof.
  unfold lua_getfield.
  rewrite (index2value_at _ (stack L) [] (VTable fields)); [reflexivity| |].
  - reflexivity.
  - rewrite (lua_absindex_neg _ (-1)) by lia.
    assert (H : lua_gettop (lua_pushvalue_of L (VTable fields))
                = (Z.of_nat (length (stack L)) + 1)%Z)
      by (unfold lua_gettop; simpl; rewrite length_app; simpl; lia).
    rewrite H. rewrite lua_absindex_pos; lia.
Qed.

Lemma members_agree {A : Type} (g : A -> string)
      (rd : A -> expected host_value) (ms : list A)
      (vs vs' : list (string * host_value)) :
  Forall2 (fun m v => g m = fst v /\ rd m = expected_value (snd v)) ms vs ->
  Forall2 (fun m v => rd m = expected_value (snd v)) ms vs' ->
  map fst vs' = map g ms ->
  vs' = vs.
Proof.
  intros H. revert vs'.
  induction H as [|m v ms vs [Hn Hv] H IH]; intros vs' H' Hnames.
  - inversion H'. reflexivity.
  - inversion H' as [|? v' ? vs'' Hv' Hrest]; subst.
    cbn [map] in Hnames. injection Hnames as Hn1 Hn2.
    rewrite Hv in Hv'. injection Hv' as Hv'.
    f_equal; [|apply IH; assumption].
    destruct v' as [n' x'], v as [n x]. simpl in *. congruence.
Qed.

Lemma read_encoded (T : cpp_type) :
  forall (t : host_value) (L : lua_State),
    conforms T t ->
    from_stack T (lua_pushvalue_of L (encode t)) (-1)
    = (lua_pushvalue_of L (encode t), expected_value t).
Proof.
  induction T as [d read|ms IH] using cpp_type_nested_ind; intros t L Hc.
  - cbn [from_stack]. f_equal. apply Hc.
    apply (index2value_top _ (stack L)). reflexivity.
  - destruct t as [v|vs]; [destruct Hc|].
    apply conforms_visitable in Hc as [Hnd Hall].
    change (encode (host_struct vs)) with (VTable (store_members [] vs)).
    pose proof (store_members_get vs Hnd []) as Hget.
    revert Hget. generalize (store_members [] vs). intros fields Hget.
    set (L1 := lua_pushvalue_of L (VTable fields)).
    assert (Hm : Forall2 (fun m v =>
                            fst m = fst v
                            /\ snd (from_stack (snd m)
                                      (lua_getfield L1 (lua_absindex L1 (-1))
                                                    (fst m)) (-1))
                               = expected_value (snd v)) ms vs).
    { clear Hnd. induction Hall as [|m v ms' vs' [Hn Hcv] Hall IHall].
      - constructor.
      - apply Forall_cons in IH as [IHm IHms].
        apply Forall_cons in Hget as [Hgv Hgvs].
        constructor; [|apply IHall; assumption].
        split; [exact Hn|].
        unfold L1. rewrite lua_getfield_pushed_table, Hn, Hgv.
        rewrite (IHm _ _ Hcv). reflexivity. }
    destruct (from_stack_members_ok ms L1 (-1)) as (vs' & Hr & Hnames & Hvals).
    + unfold lua_istable.
      rewrite (index2value_at L1 (stack L) [] (VTable fields));
        [reflexivity|reflexivity|].
      rewrite (lua_absindex_neg _ (-1)) by lia.
      assert (H : lua_gettop L1 = (Z.of_nat (length (stack L)) + 1)%Z)
        by (unfold lua_gettop, L1; simpl; rewrite length_app; simpl; lia).
      rewrite H. rewrite lua_absindex_pos; lia.
    + apply Forall_forall. intros m Hin.
      apply list_elem_of_lookup in Hin as [i Hi].
      destruct (Forall2_lookup_l _ _ _ _ _ Hm Hi) as (v & _ & _ & Hv).
      unfold reads_well. rewrite Hv. reflexivity.
    + rewrite Hr. f_equal. f_equal. f_equal.
      exact (members_agree fst _ ms vs vs' Hm Hvals Hnames).
Qed.

(** X23. Round trip: a host value pushed through its trait and read back from the
    top of the stack at once is read as itself, and the read leaves the
    pushed value where it is. *)
Theorem push_read_round_trip (T : cpp_type) (t : host_value) (L : lua_State) :
  conforms T t ->
  exists (L1 : lua_State),
    to_stack t L = Ok tt L1
    /\ stack L1 = stack L ++ [encode t]
    /\ from_stack T L1 (-1) = (L1, expected_value t).
Proof.
  intros Hc. exists (lua_pushvalue_of L (encode t)).
  split; [apply to_stack_pushes|]. split; [reflexivity|].
  apply read_encoded, Hc.
Qed.

Lemma int_type_conforms (z : Z) : conforms int_type (host_prim (VInt z)).
Proof. intros L idx H. simpl in *. rewrite H. reflexivity. Qed.

Lemma push_read_round_trip_witness :
  let point := visitable [("x", int_type); ("y", int_type)] in
  let p := host_struct [("x", host_prim (VInt 1)); ("y", host_prim (VInt 2))] in
  exists (L1 : lua_State),
    to_stack p (sample_env [] 40) = Ok tt L1
    /\ from_stack point L1 (-1) = (L1, expected_value p).
Proof.
  intros point p.
  destruct (push_read_round_trip point p (sample_env [] 40))
    as (L1 & Hp & _ & Hr).
  - apply conforms_visitable. split.
    + apply (bool_decide_unpack _). vm_compute. exact I.
    + repeat constructor; apply int_type_conforms.
  - exists L1. split; [exact Hp|exact Hr].
Defined.

(** ** primer/set_funcs.hpp *)

Lemma set_funcs_step_at (reg : luaL_Reg) (L : lua_State)
      (st : list lua_value) (fields : list (string * lua_value)) :
  stack L = st ++ [VTable fields] ->
  exists (fields' : list (string * lua_value)),
    set_funcs_step reg L = Ok tt (set_stack L (st ++ [VTable fields']))
    /\ forall (k : string),
        table_get fields' k
        = match registered [reg] k with
          | Some f => VFun f
          | None => table_get fields k
          end.
Proof.
  intros Hs. unfold set_funcs_step. cbn [registered].
  destruct (reg_name reg) as [n|], (reg_func reg) as [f|];
    try (exists fields; split;
         [rewrite <- Hs, set_stack_id; reflexivity|reflexivity]).
  exists (table_set fields n (VFun f)). split.
  - unfold bind, effect, lua_pushcfunction.
    rewrite (lua_setfield_beneath_top _ st fields (VFun f))
      by (simpl; rewrite Hs, <- app_assoc; reflexivity).
    reflexivity.
  - intros k. destruct (String.eqb_spec n k) as [->|Hne].
    + apply table_get_set_same.
    + apply table_get_set_other, Hne.
Qed.

Lemma set_funcs_at (seq : list luaL_Reg) :
  forall (L : lua_State) (st : list lua_value)
         (fields : list (string * lua_value)),
    stack L = st ++ [VTable fields] ->
    exists (fields' : list (string * lua_value)),
      set_funcs seq L = Ok tt (set_stack L (st ++ [VTable fields']))
      /\ forall (k : string),
          table_get fields' k
          = match registered seq k with
            | Some f => VFun f
            | None => table_get fields k
            end.
Proof.
  induction seq as [|reg rest IH]; intros L st fields Hs.
  - exists fields. split; [|reflexivity].
    simpl. rewrite <- Hs, set_stack_id. reflexivity.
  - destruct (set_funcs_step_at reg L st fields Hs) as (f1 & Hstep & Hget1).
    destruct (IH (set_stack L (st ++ [VTable f1])) st f1 eq_refl)
      as (f2 & Hrest & Hget2).
    exists f2. split.
    + cbn [set_funcs]. unfold bind at 1. rewrite Hstep, Hrest. reflexivity.
    + intros k. rewrite Hget2. cbn [registered].
      destruct (registered rest k); [reflexivity|].
      rewrite Hget1. reflexivity.
Qed.



(** X24. With a table on top of the stack, [set_funcs] returns with the stack as
    it was but for that table; in it every name holds the function of the
    last entry of that name whose name and function are both non-null, and
    every other field is as before. *)
Theorem set_funcs_registers (seq : list luaL_Reg) (L : lua_State)
        (st : list lua_value) (fields : list (string * lua_value)) :
  stack L = st ++ [VTable fields] ->
  exists (fields' : list (string * lua_value)),
    set_funcs seq L = Ok tt (set_stack L (st ++ [VTable fields']))
    /\ forall (k : string),
        table_get fields' k
        = match registered seq k with
          | Some f => VFun f
          | None => table_get fields k
          end.
Proof. exact (set_funcs_at seq L st fields). Qed.

Lemma set_funcs_registers_witness :
  let seq := [ {| reg_name := Some "f"; reg_func := Some 1%nat |};
               {| reg_name := None; reg_func := Some 2%nat |};
               {| reg_name := Some "f"; reg_func := Some 3%nat |} ] in
  let L := sample_env [VInt 7; VTable [("g", VInt 0)]] 40 in
  exists (fields' : list (string * lua_value)),
    set_funcs seq L = Ok tt (set_stack L ([VInt 7] ++ [VTable fields']))
    /\ table_get fields' "f" = VFun 3
    /\ table_get fields' "g" = VInt 0.
Proof.
  intros seq L.
  destruct (set_funcs_registers seq L [VInt 7] [("g", VInt 0)] eq_refl)
    as (fields' & Hrun & Hget).
  exists fields'. split; [exact Hrun|].
  split; [exact (Hget "f")|exact (Hget "g")].
Defined.


